(** * IpSubnetCalculator 1.1.0: a shallow embedding and its verification

    The JavaScript object [IpSubnetCalculator] is embedded function by
    function.  JavaScript numbers are modelled as [Z]: every number the
    library manipulates is an integer far below 2^53, where double
    arithmetic is exact.  The 32-bit operators [&], [<<] and [>>> 0] are
    written out with their wrap-around.  A [throw] is a constructor of the
    result type, [null] is [None]. *)

From Stdlib Require Import ZArith Lia List Bool String Ascii.
Import ListNotations.

Local Open Scope string_scope.
Local Open Scope list_scope.
Local Open Scope Z_scope.

(** ** JavaScript values and completions *)

Module JS.

(** The arguments the public functions receive: a number or a string.
    Numbers are integral; a fractional number fails [ipNum % 1 === 0] in
    [isDecimalIp] and [typeof ip !== 'string'] in [isIp], exactly like an
    integer outside the address range does. *)
Inductive value : Type :=
| VNum (n : Z)
| VStr (s : string).

(** The two [Error] objects the library constructs; the payload is the
    offending value that the source concatenates to the message. *)
Inductive error : Type :=
| NotAnIpAddress (v : value)        (* 'Not an IP address: ' + ipString *)
| NotANumericIpAddress (v : value). (* 'Not a numeric IP address: ' + ipNum *)

(** Completion of a call: normal return, [throw], or an exhausted
    iteration budget (only the fuelled [while] of [calculate] can produce
    the latter). *)
Inductive exec (A : Type) : Type :=
| Return (a : A)
| Throw (e : error)
| OutOfFuel.

Arguments Return {A} a.
Arguments Throw {A} e.
Arguments OutOfFuel {A}.

Definition bind {A B : Type} (m : exec A) (k : A -> exec B) : exec B :=
  match m with
  | Return a => k a
  | Throw e => Throw e
  | OutOfFuel => OutOfFuel
  end.

(** [try { body } catch (err) { return null; }] followed by [rest]. *)
Definition try_or_null {A B : Type} (body : exec A) (rest : A -> exec (option B))
  : exec (option B) :=
  match body with
  | Return a => rest a
  | Throw _ => Return None
  | OutOfFuel => OutOfFuel
  end.

(** *** 32-bit integer operators *)

Definition two32 : Z := 4294967296.
Definition two31 : Z := 2147483648.

(** ToUint32 and ToInt32 of an integral number. *)
Definition toUint32 (x : Z) : Z := x mod two32.

Definition toInt32 (x : Z) : Z :=
  let u := x mod two32 in
  if two31 <=? u then u - two32 else u.

(** [a & b]: both operands through ToInt32, the result is a signed 32-bit
    integer. *)
Definition and32 (a b : Z) : Z := Z.land (toInt32 a) (toInt32 b).

(** [a << k]: the shift count is taken modulo 32, the result wraps to a
    signed 32-bit integer. *)
Definition shl32 (a k : Z) : Z := toInt32 (Z.shiftl (toInt32 a) (k mod 32)).

(** [x >>> 0]. *)
Definition ushr0 (x : Z) : Z := toUint32 x.

(** [a % b] on integers: the sign follows the dividend. *)
Definition rem (a b : Z) : Z := Z.rem a b.

(** [Math.floor(a / b)] for integral [a] and positive [b]. *)
Definition floor_div (a b : Z) : Z := a / b.

(** *** Strings *)

Definition is_digit (c : ascii) : bool :=
  let n := nat_of_ascii c in (48 <=? n)%nat && (n <=? 57)%nat.

Definition digit_value (c : ascii) : Z := Z.of_nat (nat_of_ascii c) - 48.

Fixpoint all_digits (s : string) : bool :=
  match s with
  | EmptyString => true
  | String c s' => is_digit c && all_digits s'
  end.

(** [s.split('.')]. *)
Fixpoint split_dot_aux (cur : string) (s : string) : list string :=
  match s with
  | EmptyString => [cur]
  | String c s' =>
      if Ascii.eqb c "."%char
      then cur :: split_dot_aux EmptyString s'
      else split_dot_aux (cur ++ String c EmptyString)%string s'
  end.

Definition split_dot (s : string) : list string := split_dot_aux EmptyString s.

(** One capture group [([0-9]{1,3})]. *)
Definition octet_group (s : string) : bool :=
  all_digits s && (1 <=? String.length s)%nat && (String.length s <=? 3)%nat.

(** [ip.match(/^([0-9]{1,3})\.([0-9]{1,3})\.([0-9]{1,3})\.([0-9]{1,3})$/)]:
    the four captures, or [None] for [null].  A digit group never holds a
    dot, so the anchored pattern matches exactly the strings whose four
    dot-separated fields are groups of one to three digits. *)
Definition match_ip (s : string) : option (string * string * string * string) :=
  match split_dot s with
  | [a; b; c; d] =>
      if octet_group a && octet_group b && octet_group c && octet_group d
      then Some (a, b, c, d)
      else None
  | _ => None
  end.

(** Decimal value of a digit string: what [parseInt(s, 10)] and unary [+s]
    both return on a capture of [[0-9]{1,3}]. *)
Definition decimal_value (s : string) : Z :=
  fold_left (fun acc c => acc * 10 + digit_value c) (list_ascii_of_string s) 0.

Definition parseInt10 (s : string) : Z := decimal_value s.
Definition to_number (s : string) : Z := decimal_value s.

Definition digit_char (d : Z) : ascii := ascii_of_nat (Z.to_nat (48 + d)).

(** Number-to-string conversion of an integer in [0, 999]; [toString]
    only applies it to residues modulo 256. *)
Definition string_of_number (n : Z) : string :=
  if n <? 10 then String (digit_char n) EmptyString
  else if n <? 100 then
    String (digit_char (n / 10)) (String (digit_char (n mod 10)) EmptyString)
  else
    String (digit_char (n / 100))
      (String (digit_char ((n / 10) mod 10))
         (String (digit_char (n mod 10)) EmptyString)).

End JS.

Import JS.

Notation "x <- m ;; k" := (bind m (fun x => k))
  (at level 61, m at next level, right associativity).

(** ** The library *)

Module IpSubnetCalculator.

(** The subnet data object returned by [getMaskRange]. *)
Record MaskRange : Type := mkMaskRange {
  ipLow : Z;
  ipLowStr : string;
  ipHigh : Z;
  ipHighStr : string;
  prefixMask : Z;
  prefixMaskStr : string;
  prefixSize : Z;
  invertedMask : Z;
  invertedMaskStr : string;
  invertedSize : Z
}.

(** [isIp]. *)
Definition isIp (ip : value) : bool :=
  match ip with
  | VNum _ => false
  | VStr s =>
      match match_ip s with
      | None => false
      | Some (a, b, c, d) =>
          forallb
            (fun part =>
               let n := parseInt10 part in
               negb ((255 <? n) || (n <? 0)))
            [a; b; c; d]
      end
  end.

(** [isDecimalIp]. *)
Definition isDecimalIp (ipNum : value) : bool :=
  match ipNum with
  | VNum n => (rem n 1 =? 0) && (0 <=? n) && (n <=? 4294967295)
  | VStr _ => false
  end.

(** [toDecimal]; [d[ i ]] is the [i]-th field of the split, and [isIp]
    has checked that there are four of them. *)
Definition toDecimal (ipString : value) : exec Z :=
  match ipString with
  | VNum n =>
      if isDecimalIp ipString then Return n
      else (* isIp of a number is false *) Throw (NotAnIpAddress ipString)
  | VStr s =>
      if negb (isIp ipString) then Throw (NotAnIpAddress ipString)
      else
        let d := split_dot s in
        let at_ (i : nat) := nth i d EmptyString in
        Return ((((((to_number (at_ 0%nat)) * 256) + to_number (at_ 1%nat)) * 256)
                   + to_number (at_ 2%nat)) * 256 + to_number (at_ 3%nat))
  end.

(** The loop of [toString]: [i] runs from 3 down to 1. *)
Fixpoint toString_loop (i : nat) (ipNum : Z) (d : string) : string :=
  match i with
  | O => d
  | S i' =>
      let ipNum := floor_div ipNum 256 in
      let d := (string_of_number (rem ipNum 256) ++ "." ++ d)%string in
      toString_loop i' ipNum d
  end.

(** [toString]; [d] starts as the number [ipNum % 256], which the first
    concatenation turns into its decimal string. *)
Definition toString (ipNum : value) : exec string :=
  match ipNum with
  | VStr s =>
      if isIp ipNum then Return s
      else (* isDecimalIp of a string is false *)
        Throw (NotANumericIpAddress ipNum)
  | VNum n =>
      if negb (isDecimalIp ipNum) then Throw (NotANumericIpAddress ipNum)
      else Return (toString_loop 3 n (string_of_number (rem n 256)))
  end.

(** [getPrefixMask]: the [for] loop, [n] iterations left, counter [i]. *)
Fixpoint getPrefixMask_loop (n : nat) (i mask : Z) : Z :=
  match n with
  | O => mask
  | S n' => getPrefixMask_loop n' (i + 1) (mask + ushr0 (shl32 1 (32 - (i + 1))))
  end.

(** [for( i = 0; i < prefixSize; i++ )] runs [max 0 prefixSize] times. *)
Definition getPrefixMask (prefixSize : Z) : Z :=
  getPrefixMask_loop (Z.to_nat prefixSize) 0 0.

(** [getMask]. *)
Fixpoint getMask_loop (n : nat) (i mask : Z) : Z :=
  match n with
  | O => mask
  | S n' => getMask_loop n' (i + 1) (mask + ushr0 (shl32 1 i))
  end.

Definition getMask (maskSize : Z) : Z :=
  getMask_loop (Z.to_nat maskSize) 0 0.

(** [getMaskRange]; the four renderings are evaluated in the order of the
    object literal, and each may throw. *)
Definition getMaskRange (ipNum prefixSize : Z) : exec MaskRange :=
  let prefixMask := getPrefixMask prefixSize in
  let lowMask := getMask (32 - prefixSize) in
  let ipLow := ushr0 (and32 ipNum prefixMask) in
  let ipHigh := ushr0 (ushr0 (and32 ipNum prefixMask) + lowMask) in
  ipLowStr <- toString (VNum ipLow) ;;
  ipHighStr <- toString (VNum ipHigh) ;;
  prefixMaskStr <- toString (VNum prefixMask) ;;
  invertedMaskStr <- toString (VNum lowMask) ;;
  Return {|
    ipLow := ipLow;
    ipLowStr := ipLowStr;
    ipHigh := ipHigh;
    ipHighStr := ipHighStr;
    prefixMask := prefixMask;
    prefixMaskStr := prefixMaskStr;
    prefixSize := prefixSize;
    invertedMask := lowMask;
    invertedMaskStr := invertedMaskStr;
    invertedSize := 32 - prefixSize
  |}.

(** [getOptimalRange]: [n] is the number of prefix sizes not yet examined,
    so the candidate of this iteration is [prefixSize = n - 1]; the loop
    starts at 32 and ends when [prefixSize >= 0] fails or at the [break].
    Next to the result the loop records the candidates it examined. *)
Fixpoint getOptimalRange_loop (n : nat) (ipNum ipEndNum : Z)
    (optimalRange : option MaskRange) (examined : list Z)
  : exec (option MaskRange * list Z) :=
  match n with
  | O => Return (optimalRange, examined)
  | S n' =>
      let prefixSize := Z.of_nat n' in
      maskRange <- getMaskRange ipNum prefixSize ;;
      if (ipLow maskRange =? ipNum) && (ipHigh maskRange <=? ipEndNum)
      then getOptimalRange_loop n' ipNum ipEndNum (Some maskRange)
             (examined ++ [prefixSize])
      else Return (optimalRange, examined ++ [prefixSize])
  end.

Definition getOptimalRange_trace (ipNum ipEndNum : Z)
  : exec (option MaskRange * list Z) :=
  getOptimalRange_loop 33 ipNum ipEndNum None [].

Definition getOptimalRange (ipNum ipEndNum : Z) : exec (option MaskRange) :=
  r <- getOptimalRange_trace ipNum ipEndNum ;; Return (fst r).

(** The [while] loop of [calculate]; [fuel] bounds the number of times
    the body runs.  [ipCurNum] is a JavaScript number, so
    [optimalRange.ipHigh + 1] is an exact addition. *)
Fixpoint calculate_loop (fuel : nat) (ipCurNum ipEndNum : Z)
    (rangeCollection : list MaskRange) : exec (option (list MaskRange)) :=
  if ipCurNum <=? ipEndNum then
    match fuel with
    | O => OutOfFuel
    | S fuel' =>
        optimalRange <- getOptimalRange ipCurNum ipEndNum ;;
        match optimalRange with
        | None => Return None
        | Some optimalRange =>
            calculate_loop fuel' (ipHigh optimalRange + 1) ipEndNum
              (rangeCollection ++ [optimalRange])
        end
    end
  else Return (Some rangeCollection).

(** [calculate]. *)
Definition calculate (fuel : nat) (ipStart ipEnd : value)
  : exec (option (list MaskRange)) :=
  try_or_null
    (ipStartNum <- toDecimal ipStart ;;
     ipEndNum <- toDecimal ipEnd ;;
     Return (ipStartNum, ipEndNum))
    (fun '(ipStartNum, ipEndNum) =>
       if ipEndNum <? ipStartNum then Return None
       else calculate_loop fuel ipStartNum ipEndNum []).

(** [calculateSubnetMask]; the call of [getMaskRange] is outside the
    [try]. *)
Definition calculateSubnetMask (ip : value) (prefixSize : Z)
  : exec (option MaskRange) :=
  try_or_null (toDecimal ip)
    (fun ipNum => r <- getMaskRange ipNum prefixSize ;; Return (Some r)).

(** The [for] loop of [calculateCIDRPrefix]: [n] iterations left before
    [prefixSize < 32] fails; returns the final [prefixSize]. *)
Fixpoint calculateCIDRPrefix_loop (n : nat) (subnetMaskNum prefix prefixSize : Z)
  : Z :=
  match n with
  | O => prefixSize
  | S n' =>
      let newPrefix := ushr0 (prefix + shl32 1 (32 - (prefixSize + 1))) in
      if negb (ushr0 (and32 subnetMaskNum newPrefix) =? newPrefix)
      then prefixSize
      else calculateCIDRPrefix_loop n' subnetMaskNum newPrefix (prefixSize + 1)
  end.

(** [calculateCIDRPrefix]. *)
Definition calculateCIDRPrefix (ip subnetMask : value) : exec (option MaskRange) :=
  try_or_null
    (ipNum <- toDecimal ip ;;
     subnetMaskNum <- toDecimal subnetMask ;;
     Return (ipNum, subnetMaskNum))
    (fun '(ipNum, subnetMaskNum) =>
       let prefixSize := calculateCIDRPrefix_loop 32 subnetMaskNum 0 0 in
       r <- getMaskRange ipNum prefixSize ;; Return (Some r)).

End IpSubnetCalculator.

Import IpSubnetCalculator.

(** ** Vocabulary of the properties *)

(** A number or string that [toDecimal] accepts, and its value. *)
Definition valid_address (v : value) (n : Z) : Prop := toDecimal v = Return n.

(** The integers [lo, lo + 1, ..., lo + n - 1]. *)
Definition Zrange (lo : Z) (n : nat) : list Z :=
  map (fun i => lo + Z.of_nat i) (seq 0 n).

(** The test of [getOptimalRange] on candidate [p]: the block of size
    [2 ^ (32 - p)] starts at [c] and ends at or below [e]. *)
Definition fits (c e p : Z) : Prop :=
  c mod 2 ^ (32 - p) = 0 /\ c + 2 ^ (32 - p) - 1 <= e.

(** [chain c e bs]: the blocks [bs] tile [c .. e] from left to right, each
    one starting right after its predecessor. *)
Fixpoint chain (c e : Z) (bs : list MaskRange) : Prop :=
  match bs with
  | [] => c = e + 1
  | b :: bs' =>
      ipLow b = c /\ ipLow b <= ipHigh b <= e /\ chain (ipHigh b + 1) e bs'
  end.

(** Each block's low address is the previous block's high address plus
    one. *)
Definition contiguous (bs : list MaskRange) : Prop :=
  forall i b b',
    nth_error bs i = Some b -> nth_error bs (S i) = Some b' ->
    ipLow b' = ipHigh b + 1.

(** Blocks are non-empty, and a block that comes earlier in the list lies
    entirely below a later one: ascending order without overlap. *)
Definition ascending_disjoint (bs : list MaskRange) : Prop :=
  (forall b, In b bs -> ipLow b <= ipHigh b) /\
  forall i j bi bj,
    (i < j)%nat -> nth_error bs i = Some bi -> nth_error bs j = Some bj ->
    ipHigh bi < ipLow bj.

(** The union of the blocks is exactly the inclusive range [s .. e]. *)
Definition covers (bs : list MaskRange) (s e : Z) : Prop :=
  forall x, s <= x <= e <-> exists b, In b bs /\ ipLow b <= x <= ipHigh b.

(** An octet without leading zeros. *)
Definition canonical_octet (s : string) : bool :=
  match s with
  | String c (String _ _) => negb (Ascii.eqb c "0"%char)
  | _ => true
  end.

(** A dotted-decimal string in canonical form: it matches the pattern of
    [isIp] and no octet carries a leading zero. *)
Definition canonical (s : string) : bool :=
  match match_ip s with
  | Some (a, b, c, d) => forallb canonical_octet [a; b; c; d]
  | None => false
  end.

(** An octet without its leading zeros: a zero is dropped as long as
    another character follows it. *)
Fixpoint strip_zeros (s : string) : string :=
  match s with
  | String c (String _ _ as s') =>
      if Ascii.eqb c "0"%char then strip_zeros s' else s
  | _ => s
  end.

(** The inverse of [split_dot]: the fields joined by dots. *)
Fixpoint join_dot (parts : list string) : string :=
  match parts with
  | [] => EmptyString
  | a :: rest =>
      match rest with
      | [] => a
      | _ :: _ => (a ++ "." ++ join_dot rest)%string
      end
  end.

(** The canonical form of a dotted string, defined on the text alone:
    every field stripped of its leading zeros. *)
Definition canonical_form (s : string) : string :=
  join_dot (map strip_zeros (split_dot s)).

(** A CIDR block, as far as its bounds and prefix size go: the low
    address is aligned to the block size and the high address is the last
    one of the block. *)
Definition cidr_block (b : MaskRange) : Prop :=
  0 <= prefixSize b <= 32 /\
  ipLow b mod 2 ^ (32 - prefixSize b) = 0 /\
  ipHigh b = ipLow b + 2 ^ (32 - prefixSize b) - 1.

(** [m] contains the prefix mask of size [p] bit for bit. *)
Definition contains_prefix (m p : Z) : Prop :=
  Z.land m (getPrefixMask p) = getPrefixMask p.

(** The leading run of one-bits of the 32-bit value [m] has length [p]. *)
Definition leading_ones (m p : Z) : Prop :=
  (forall i, 32 - p <= i < 32 -> Z.testbit m i = true) /\
  (p < 32 -> Z.testbit m (31 - p) = false).

(** ** The cases of the library's test suite, evaluated on the embedding *)

Section TestSuite.

Example test_toDecimal :
  map toDecimal [VStr "127.0.0.1"; VStr "8.8.4.4"; VStr "8.8.8.8"; VStr "4.2.2.2";
                 VStr "255.255.255.255"; VStr "0.0.0.0"; VNum 4026531840]
  = map Return [2130706433; 134743044; 134744072; 67240450; 4294967295; 0; 4026531840].
Proof. reflexivity. Qed.

Example test_toString :
  map toString [VNum 2130706433; VNum 134743044; VNum 4294967295; VNum 0;
                VStr "127.0.0.1"]
  = map Return ["127.0.0.1"; "8.8.4.4"; "255.255.255.255"; "0.0.0.0"; "127.0.0.1"].
Proof. reflexivity. Qed.

Example test_toString_rejects :
  toString (VNum (-1)) = Throw (NotANumericIpAddress (VNum (-1))).
Proof. reflexivity. Qed.

Example test_getMask :
  map getMask [0; 4; 15; 32] = [0; 15; 32767; 4294967295].
Proof. reflexivity. Qed.

Example test_getPrefixMask :
  map getPrefixMask [0; 4; 15; 32] = [0; 4026531840; 4294836224; 4294967295].
Proof. reflexivity. Qed.

Example test_isIp :
  map isIp [VStr "127.0.0.1"; VStr "255.255.255.255"; VStr "0.0.0.0"; VStr "12.32";
            VStr "0.0.0.0.1"; VStr "123.123.512.123"; VStr " 123.123.123.123 ";
            VStr "hello world"; VNum 0; VNum 67240450]
  = [true; true; true; false; false; false; false; false; false; false].
Proof. reflexivity. Qed.

Example test_isDecimalIp :
  map isDecimalIp [VNum 2130706433; VNum 4294967295; VNum 0; VNum 4294967296;
                   VStr "hello world"; VStr "127.0.0.1"]
  = [true; true; true; false; false; false].
Proof. reflexivity. Qed.

Example test_getOptimalRange :
  exists r,
    getOptimalRange 2147483648 2147549183 = Return (Some r) /\
    ipLowStr r = "128.0.0.0" /\ ipHighStr r = "128.0.255.255" /\
    prefixSize r = 16 /\ invertedSize r = 16.
Proof. eexists. split; [vm_compute; reflexivity | repeat split]. Qed.

Example test_getOptimalRange_inverted :
  getOptimalRange 168099840 167773977 = Return None.
Proof. reflexivity. Qed.

Example test_calculateSubnetMask :
  exists r,
    calculateSubnetMask (VStr "10.0.0.45") 24 = Return (Some r) /\
    ipLowStr r = "10.0.0.0" /\ ipHighStr r = "10.0.0.255" /\
    prefixSize r = 24 /\ invertedSize r = 8.
Proof. eexists. split; [vm_compute; reflexivity | repeat split]. Qed.

Example test_calculateCIDRPrefix :
  exists r,
    calculateCIDRPrefix (VStr "101.0.2.45") (VStr "255.255.0.0") = Return (Some r) /\
    ipLowStr r = "101.0.0.0" /\ ipHighStr r = "101.0.255.255" /\
    prefixSize r = 16 /\ invertedSize r = 16.
Proof. eexists. split; [vm_compute; reflexivity | repeat split]. Qed.

Example test_calculate :
  exists r0 r1,
    calculate 2 (VStr "10.0.0.0") (VStr "10.0.1.1") = Return (Some [r0; r1]) /\
    ipLowStr r0 = "10.0.0.0" /\ ipHighStr r0 = "10.0.0.255" /\
    ipLowStr r1 = "10.0.1.0" /\ ipHighStr r1 = "10.0.1.1".
Proof. do 2 eexists. split; [vm_compute; reflexivity | repeat split]. Qed.

Example test_calculate_rejects :
  calculate 62 (VStr "hello") (VStr "world") = Return None /\
  calculate 62 (VStr "10.1.0.0") (VStr "10.0.0.0") = Return None /\
  calculateSubnetMask (VStr "helloworld") 24 = Return None /\
  calculateCIDRPrefix (VStr "helloworld") (VStr "255.255.255.255") = Return None.
Proof. repeat split. Qed.

(** A mask with stray low one-bits: only the leading run counts. *)
Example calculateCIDRPrefix_stray_bits :
  exists r,
    calculateCIDRPrefix (VStr "10.0.0.45") (VStr "255.255.0.255") = Return (Some r) /\
    prefixSize r = 16 /\ prefixMaskStr r = "255.255.0.0".
Proof. eexists. split; [vm_compute; reflexivity | repeat split]. Qed.

End TestSuite.

(** ** Arithmetic of the 32-bit operators *)

Section Bits.

Lemma two32_pow : two32 = 2 ^ 32.
Proof. reflexivity. Qed.

Lemma toInt32_mod (x : Z) : toInt32 x mod two32 = x mod two32.
Proof.
  unfold toInt32.
  destruct (two31 <=? x mod two32).
  - replace (x mod two32 - two32) with (x mod two32 + (-1) * two32) by ring.
    rewrite Z.mod_add by (unfold two32; lia).
    apply Z.mod_mod. unfold two32; lia.
  - apply Z.mod_mod. unfold two32; lia.
Qed.

Lemma land_mod_two32 (a b : Z) :
  Z.land a b mod two32 = Z.land (a mod two32) (b mod two32).
Proof.
  rewrite two32_pow, <- !Z.land_ones by lia.
  apply Z.bits_inj'. intros n Hn.
  rewrite !Z.land_spec.
  destruct (Z.testbit a n), (Z.testbit b n), (Z.testbit (Z.ones 32) n); reflexivity.
Qed.

(** [( a & b ) >>> 0] is the bitwise conjunction of the operands taken as
    unsigned 32-bit integers. *)
Lemma ushr0_and32 (a b : Z) :
  ushr0 (and32 a b) = Z.land (a mod two32) (b mod two32).
Proof.
  unfold ushr0, toUint32, and32.
  rewrite land_mod_two32, !toInt32_mod. reflexivity.
Qed.

Lemma ushr0_small (x : Z) : 0 <= x < two32 -> ushr0 x = x.
Proof. intros H. apply Z.mod_small. exact H. Qed.


Lemma testbit_above (c m n : Z) :
  0 <= c < 2 ^ m -> m <= n -> Z.testbit c n = false.
Proof.
  intros [H0 H1] Hmn.
  destruct (Z.eq_dec c 0) as [->|Hc]; [apply Z.bits_0|].
  apply Z.bits_above_log2; [lia|].
  assert (0 <= m) by (destruct (Z.le_gt_cases 0 m); [lia|]; rewrite Z.pow_neg_r in H1; lia).
  apply Z.log2_lt_pow2 in H1; lia.
Qed.

Lemma prefix_mask_shape (k : Z) :
  0 <= k <= 32 -> 2 ^ 32 - 2 ^ k = Z.shiftl (Z.ones (32 - k)) k.
Proof.
  intros Hk.
  rewrite Z.shiftl_mul_pow2, Z.ones_equiv by lia.
  unfold Z.pred. rewrite Z.mul_add_distr_r, <- Z.pow_add_r by lia.
  replace (32 - k + k) with 32 by ring. ring.
Qed.

Lemma testbit_prefix_mask (k n : Z) :
  0 <= k <= 32 -> 0 <= n ->
  Z.testbit (2 ^ 32 - 2 ^ k) n = (k <=? n) && (n <? 32).
Proof.
  intros Hk Hn.
  rewrite prefix_mask_shape, Z.shiftl_spec by lia.
  destruct (Z.leb_spec k n).
  - rewrite Z.testbit_ones_nonneg by lia.
    destruct (Z.ltb_spec (n - k) (32 - k)), (Z.ltb_spec n 32); try lia; reflexivity.
  - rewrite Z.testbit_neg_r by lia. reflexivity.
Qed.

(** Masking with the top [32 - k] bits clears the low [k] bits. *)
Lemma land_prefix_mask (c k : Z) :
  0 <= k <= 32 -> 0 <= c < 2 ^ 32 ->
  Z.land c (2 ^ 32 - 2 ^ k) = 2 ^ k * (c / 2 ^ k).
Proof.
  intros Hk Hc.
  apply Z.bits_inj'. intros n Hn.
  rewrite Z.land_spec, testbit_prefix_mask by lia.
  rewrite Z.mul_comm, <- Z.shiftl_mul_pow2, Z.shiftl_spec by lia.
  rewrite <- Z.shiftr_div_pow2 by lia.
  destruct (Z.leb_spec k n).
  - rewrite Z.shiftr_spec by lia. replace (n - k + k) with n by ring.
    destruct (Z.ltb_spec n 32).
    + apply andb_true_r.
    + rewrite (testbit_above c 32 n) by lia. reflexivity.
  - rewrite (Z.testbit_neg_r _ (n - k)) by lia. apply andb_false_r.
Qed.

Lemma land_prefix_mask_mod (c k : Z) :
  0 <= k <= 32 -> 0 <= c < 2 ^ 32 ->
  Z.land c (2 ^ 32 - 2 ^ k) = c - c mod 2 ^ k.
Proof.
  intros Hk Hc. rewrite land_prefix_mask by assumption.
  pose proof (Z.div_mod c (2 ^ k)) as E.
  assert (0 < 2 ^ k) by (apply Z.pow_pos_nonneg; lia).
  lia.
Qed.

End Bits.

(** ** Exhaustive checks over a bounded range of sizes *)

Lemma Zrange_forallb (P : Z -> bool) (lo : Z) (n : nat) :
  forallb P (Zrange lo n) = true ->
  forall z, lo <= z < lo + Z.of_nat n -> P z = true.
Proof.
  intros H z Hz.
  rewrite forallb_forall in H. apply H.
  unfold Zrange. apply in_map_iff.
  exists (Z.to_nat (z - lo)). split; [cbv beta; lia|].
  apply in_seq. lia.
Qed.

Ltac by_cases_on p lo n :=
  pattern p;
  match goal with
  | |- ?Q p =>
      let H := fresh in
      assert (H : forall z, lo <= z < lo + Z.of_nat n -> Q z);
      [ intros z Hz;
        apply Z.eqb_eq;
        revert z Hz;
        apply (Zrange_forallb _ lo n);
        vm_compute; reflexivity
      | apply H; simpl; lia ]
  end.

(** ** Masks *)

Section Masks.

Lemma getPrefixMask_closed (p : Z) :
  0 <= p <= 32 -> getPrefixMask p = 2 ^ 32 - 2 ^ (32 - p).
Proof. intros Hp. by_cases_on p 0 33%nat. Qed.

Lemma getMask_closed (n : Z) :
  0 <= n <= 32 -> getMask n = 2 ^ n - 1.
Proof. intros Hn. by_cases_on n 0 33%nat. Qed.

End Masks.

(** ** Rendering of in-range numbers never throws *)

Section Codec.

Lemma isDecimalIp_in_range (n : Z) :
  0 <= n < two32 -> isDecimalIp (VNum n) = true.
Proof.
  intros H. unfold isDecimalIp, rem, two32 in *.
  rewrite Z.rem_1_r.
  destruct (Z.leb_spec 0 n), (Z.leb_spec n 4294967295); try lia; reflexivity.
Qed.


Lemma toString_in_range (n : Z) :
  0 <= n < two32 ->
  toString (VNum n) = Return (toString_loop 3 n (string_of_number (rem n 256))).
Proof.
  intros H. unfold toString. rewrite isDecimalIp_in_range by assumption.
  reflexivity.
Qed.


End Codec.

(** ** Block queries *)

Section BlockQuery.

Lemma pow2_pos (k : Z) : 0 <= k -> 0 < 2 ^ k.
Proof. intros. apply Z.pow_pos_nonneg; lia. Qed.

Lemma pow2_succ (k : Z) : 0 <= k -> 2 ^ (k + 1) = 2 * 2 ^ k.
Proof. intros Hk. rewrite Z.pow_add_r, Z.pow_1_r by lia. ring. Qed.

Lemma aligned_block_bound (c k : Z) :
  0 <= k <= 32 -> 0 <= c < 2 ^ 32 ->
  0 <= c - c mod 2 ^ k /\ c - c mod 2 ^ k + 2 ^ k <= 2 ^ 32.
Proof.
  intros Hk Hc.
  pose proof (pow2_pos k ltac:(lia)) as Hpos.
  pose proof (Z.mod_pos_bound c (2 ^ k) Hpos) as Hm.
  pose proof (Z.mod_le c (2 ^ k) ltac:(lia) Hpos) as Hle.
  split; [lia|].
  assert (E : 2 ^ 32 = 2 ^ k * 2 ^ (32 - k)).
  { rewrite <- Z.pow_add_r by lia. f_equal. lia. }
  assert (Hq : c / 2 ^ k < 2 ^ (32 - k)).
  { apply Z.div_lt_upper_bound; lia. }
  pose proof (Z.div_mod c (2 ^ k) ltac:(lia)) as D.
  replace (c - c mod 2 ^ k) with (2 ^ k * (c / 2 ^ k)) by lia.
  rewrite E. nia.
Qed.

(** What [getMaskRange] returns on an address and a prefix size of the
    documented ranges. *)
Lemma getMaskRange_spec (c p : Z) :
  0 <= c < 2 ^ 32 -> 0 <= p <= 32 ->
  exists r,
    getMaskRange c p = Return r /\
    prefixSize r = p /\
    invertedSize r = 32 - p /\
    prefixMask r = 2 ^ 32 - 2 ^ (32 - p) /\
    invertedMask r = 2 ^ (32 - p) - 1 /\
    ipLow r = c - c mod 2 ^ (32 - p) /\
    ipHigh r = ipLow r + 2 ^ (32 - p) - 1.
Proof.
  intros Hc Hp.
  pose proof (pow2_pos (32 - p) ltac:(lia)) as Hpos.
  pose proof (aligned_block_bound c (32 - p) ltac:(lia) Hc) as [Hlo Hhi].
  assert (Hpow : 2 ^ (32 - p) <= 2 ^ 32) by (apply Z.pow_le_mono_r; lia).
  unfold getMaskRange.
  rewrite getPrefixMask_closed, getMask_closed by lia.
  rewrite ushr0_and32.
  rewrite (Z.mod_small c), (Z.mod_small (2 ^ 32 - 2 ^ (32 - p)))
    by (rewrite two32_pow; lia).
  rewrite land_prefix_mask_mod by lia.
  rewrite (ushr0_small (c - c mod 2 ^ (32 - p) + (2 ^ (32 - p) - 1)))
    by (rewrite two32_pow; lia).
  rewrite !toString_in_range by (rewrite two32_pow; lia).
  eexists. split; [reflexivity|]. cbn [prefixSize invertedSize prefixMask invertedMask ipLow ipHigh].
  repeat split; lia.
Qed.

Lemma fits_test (c e p : Z) (r : MaskRange) :
  0 <= c < 2 ^ 32 -> 0 <= p <= 32 ->
  getMaskRange c p = Return r ->
  ((ipLow r =? c) && (ipHigh r <=? e) = true <-> fits c e p).
Proof.
  intros Hc Hp Hr.
  destruct (getMaskRange_spec c p Hc Hp) as (r' & Hr' & _ & _ & _ & _ & Hlow & Hhigh).
  rewrite Hr in Hr'. injection Hr' as <-.
  pose proof (pow2_pos (32 - p) ltac:(lia)) as Hpos.
  pose proof (Z.mod_pos_bound c (2 ^ (32 - p)) Hpos) as Hm.
  unfold fits. rewrite andb_true_iff, Z.eqb_eq, Z.leb_le. lia.
Qed.

Lemma fits_32 (c e : Z) : c <= e -> fits c e 32.
Proof.
  intros H. unfold fits. replace (32 - 32) with 0 by ring.
  rewrite Z.pow_0_r, Z.mod_1_r. lia.
Qed.

Lemma fits_mono (c e p q : Z) :
  0 <= p <= q -> q <= 32 -> fits c e p -> fits c e q.
Proof.
  intros Hpq Hq [Hal Hbd].
  pose proof (pow2_pos (32 - q) ltac:(lia)) as Hpos.
  assert (Hle : 2 ^ (32 - q) <= 2 ^ (32 - p)) by (apply Z.pow_le_mono_r; lia).
  split; [|lia].
  apply Z.mod_divide; [lia|].
  apply Z.divide_trans with (2 ^ (32 - p)).
  - exists (2 ^ (q - p)). rewrite <- Z.pow_add_r by lia. f_equal. lia.
  - apply Z.mod_divide; [|exact Hal]. pose proof (pow2_pos (32 - p)); lia.
Qed.

End BlockQuery.

(** ** The optimal-block search *)

Section OptimalRange.

(** The search examines at most as many candidates as it has iterations
    left, whatever its arguments. *)
Lemma getOptimalRange_loop_examined (n : nat) :
  forall c e opt ex res tr,
    getOptimalRange_loop n c e opt ex = Return (res, tr) ->
    (List.length tr <= List.length ex + n)%nat.
Proof.
  induction n as [|n IH]; intros c e opt ex res tr H; simpl in H.
  - injection H as _ <-. lia.
  - destruct (getMaskRange c (Z.of_nat n)) as [m| |]; simpl in H; try discriminate.
    destruct ((ipLow m =? c) && (ipHigh m <=? e)).
    + apply IH in H. rewrite length_app in H. simpl in H. lia.
    + injection H as _ <-. rewrite length_app. simpl. lia.
Qed.

(** Invariant of the descending loop: every size above the next
    candidate fits, and [optimalRange] holds the block of the size last
    examined. *)
Lemma getOptimalRange_loop_spec (n : nat) :
  forall c e opt ex,
    0 <= c < 2 ^ 32 ->
    (n <= 33)%nat ->
    fits c e 32 ->
    (forall p, Z.of_nat n <= p <= 32 -> fits c e p) ->
    ((n <= 32)%nat -> exists r, opt = Some r /\ getMaskRange c (Z.of_nat n) = Return r) ->
    exists r tr,
      getOptimalRange_loop n c e opt ex = Return (Some r, tr) /\
      0 <= prefixSize r <= 32 /\
      getMaskRange c (prefixSize r) = Return r /\
      fits c e (prefixSize r) /\
      (prefixSize r = 0 \/ ~ fits c e (prefixSize r - 1)).
Proof.
  induction n as [|n IH]; intros c e opt ex Hc Hn H32 Hall Hopt.
  - destruct Hopt as (r & -> & Hr); [lia|].
    destruct (getMaskRange_spec c 0 Hc ltac:(lia)) as (r' & Hr' & Hp & _).
    simpl in Hr. rewrite Hr in Hr'. injection Hr' as <-.
    exists r, ex. simpl. rewrite Hp.
    split; [reflexivity|]. split; [lia|]. split; [assumption|].
    split; [apply Hall; lia | left; reflexivity].
  - destruct (getMaskRange_spec c (Z.of_nat n) Hc ltac:(lia)) as (m & Hm & Hp & _).
    simpl. rewrite Hm. simpl.
    pose proof (fits_test c e (Z.of_nat n) m Hc ltac:(lia) Hm) as Htest.
    destruct ((ipLow m =? c) && (ipHigh m <=? e)).
    + apply IH; try assumption; try lia.
      * intros p Hp'. destruct (Z.eq_dec p (Z.of_nat n)) as [->|].
        -- apply Htest. reflexivity.
        -- apply Hall. lia.
      * intros _. exists m. split; [reflexivity | assumption].
    + assert (Hnot : ~ fits c e (Z.of_nat n)).
      { intros F. apply Htest in F. discriminate. }
      assert (Hlt : (S n <= 32)%nat).
      { destruct (Nat.eq_dec n 32) as [->|]; [|lia]. exfalso. apply Hnot. exact H32. }
      destruct (Hopt Hlt) as (r & -> & Hr).
      destruct (getMaskRange_spec c (Z.of_nat (S n)) Hc ltac:(lia)) as (r' & Hr' & Hp' & _).
      rewrite Hr in Hr'. injection Hr' as <-.
      exists r, (ex ++ [Z.of_nat n]). rewrite Hp'.
      split; [reflexivity|]. split; [lia|]. split; [assumption|].
      split; [apply Hall; lia|].
      right. replace (Z.of_nat (S n) - 1) with (Z.of_nat n) by lia. exact Hnot.
Qed.

(** The block found for a cursor [c] and an end [e] of the address
    space, [c <= e]. *)
Lemma getOptimalRange_spec (c e : Z) :
  0 <= c -> c <= e -> e < 2 ^ 32 ->
  exists r,
    getOptimalRange c e = Return (Some r) /\
    0 <= prefixSize r <= 32 /\
    getMaskRange c (prefixSize r) = Return r /\
    ipLow r = c /\
    ipHigh r = c + 2 ^ (32 - prefixSize r) - 1 /\
    fits c e (prefixSize r) /\
    (prefixSize r = 0 \/ ~ fits c e (prefixSize r - 1)).
Proof.
  intros H0 Hce He.
  destruct (getOptimalRange_loop_spec 33 c e None [] ltac:(lia) ltac:(lia)
              (fits_32 c e Hce)) as (r & tr & Hrun & Hp & Hr & Hfit & Hmin).
  - intros p Hp. lia.
  - intros Hn. lia.
  - exists r. unfold getOptimalRange, getOptimalRange_trace. rewrite Hrun.
    cbn [bind fst].
    destruct (getMaskRange_spec c (prefixSize r) ltac:(lia) Hp)
      as (r' & Hr' & _ & _ & _ & _ & Hlow & Hhigh).
    rewrite Hr in Hr'. injection Hr' as <-.
    pose proof Hfit as [Hal Hbd].
    split; [reflexivity|]. split; [exact Hp|]. split; [exact Hr|].
    split; [lia|]. split; [lia|]. split; assumption.
Qed.

End OptimalRange.

(** ** The decomposition loop *)

Section Decompose.

Lemma mod_pow2_weaken (c j k : Z) :
  0 <= j <= k -> c mod 2 ^ k = 0 -> c mod 2 ^ j = 0.
Proof.
  intros Hjk H.
  pose proof (pow2_pos j ltac:(lia)). pose proof (pow2_pos k ltac:(lia)).
  apply Z.mod_divide; [lia|].
  apply Z.divide_trans with (2 ^ k).
  - exists (2 ^ (k - j)). rewrite <- Z.pow_add_r by lia. f_equal. lia.
  - apply Z.mod_divide; [lia | exact H].
Qed.

Lemma aligned_ge (c k : Z) :
  0 <= k -> 1 <= c -> c mod 2 ^ k = 0 -> 2 ^ k <= c.
Proof.
  intros Hk Hc H. pose proof (pow2_pos k Hk) as Hpos.
  apply Z.mod_divide in H; [|lia].
  destruct H as [q ->]. generalize dependent (2 ^ k). intros m Hpos Hc.
  assert (1 <= q) by nia. nia.
Qed.

Lemma pow2_lt_inv (a b : Z) : 0 <= b -> 2 ^ a < 2 ^ b -> a < b.
Proof.
  intros Hb H. destruct (Z.lt_ge_cases a b) as [|Hge]; [assumption|].
  pose proof (Z.pow_le_mono_r 2 b a ltac:(lia) Hge). lia.
Qed.

Lemma add_block_aligned (c k : Z) :
  0 <= k -> c mod 2 ^ k = 0 -> (c + 2 ^ k) mod 2 ^ k = 0.
Proof.
  intros Hk H. pose proof (pow2_pos k Hk).
  rewrite <- Z.add_mod_idemp_r, Z.mod_same, Z.add_0_r by lia. exact H.
Qed.

(** Leaving an address whose alignment is exactly [2 ^ k] by a block of
    that size reaches an address aligned to [2 ^ (k + 1)]. *)
Lemma add_block_more_aligned (c k : Z) :
  0 <= k -> c mod 2 ^ k = 0 -> c mod 2 ^ (k + 1) <> 0 ->
  (c + 2 ^ k) mod 2 ^ (k + 1) = 0.
Proof.
  intros Hk H Hn. pose proof (pow2_pos k Hk) as Hpos.
  assert (E : 2 ^ (k + 1) = 2 * 2 ^ k) by (apply pow2_succ; lia).
  rewrite E in *.
  apply Z.mod_divide in H; [|lia]. destruct H as [q ->].
  destruct (Z.even q) eqn:Ev.
  - exfalso. apply Hn. apply Z.even_spec in Ev. destruct Ev as [h ->].
    apply Z.mod_divide; [lia|]. exists h. ring.
  - assert (Od : Z.odd q = true) by (rewrite <- Z.negb_even, Ev; reflexivity).
    apply Z.odd_spec in Od. destruct Od as [h ->].
    apply Z.mod_divide; [lia|]. exists (h + 1). ring.
Qed.

Lemma chain_app_one (acc : list MaskRange) (r : MaskRange) (bs : list MaskRange) :
  (acc ++ [r]) ++ bs = acc ++ r :: bs.
Proof. rewrite <- app_assoc. reflexivity. Qed.

(** One turn of the [while] body on a cursor inside the range. *)
Lemma calculate_loop_step (fuel : nat) (c e : Z) (acc : list MaskRange) (r : MaskRange) :
  c <= e -> getOptimalRange c e = Return (Some r) ->
  calculate_loop (S fuel) c e acc = calculate_loop fuel (ipHigh r + 1) e (acc ++ [r]).
Proof.
  intros Hce Hr. cbn [calculate_loop].
  destruct (Z.leb_spec c e); [|lia].
  rewrite Hr. reflexivity.
Qed.

Lemma calculate_loop_done (fuel : nat) (c e : Z) (acc : list MaskRange) :
  e < c -> calculate_loop fuel c e acc = Return (Some acc).
Proof.
  intros Hce. destruct fuel; cbn [calculate_loop];
    destruct (Z.leb_spec c e); try lia; reflexivity.
Qed.

(** Once the rest of the range is shorter than the alignment of the
    cursor, every block is cut by the end of the range and the block
    sizes decrease strictly: at most [k] blocks remain. *)
Lemma calculate_loop_descending (fuel : nat) :
  forall k c e acc,
    0 <= c -> e < 2 ^ 32 -> c <= e + 1 ->
    0 <= k -> e + 1 - c < 2 ^ k -> c mod 2 ^ k = 0 ->
    k <= Z.of_nat fuel ->
    exists bs,
      calculate_loop fuel c e acc = Return (Some (acc ++ bs)) /\
      chain c e bs /\ Z.of_nat (List.length bs) <= k.
Proof.
  induction fuel as [|fuel IH]; intros k c e acc H0 He Hce Hk Hr Hal Hfuel.
  - assert (k = 0) by lia. subst k. rewrite Z.pow_0_r in Hr.
    exists []. rewrite app_nil_r, calculate_loop_done by lia.
    simpl. repeat split; lia.
  - destruct (Z.eq_dec c (e + 1)) as [Heq|Hne].
    { exists []. rewrite app_nil_r, calculate_loop_done by lia.
      simpl. repeat split; lia. }
    destruct (getOptimalRange_spec c e ltac:(lia) ltac:(lia) He)
      as (r & Hrun & Hp & _ & Hlow & Hhigh & [Hfal Hfbd] & Hmin).
    set (kb := 32 - prefixSize r) in *.
    pose proof (pow2_pos kb ltac:(lia)) as Hpos.
    assert (Hkb : kb < k) by (apply pow2_lt_inv; lia).
    assert (Hrest : e + 1 - (c + 2 ^ kb) < 2 ^ kb).
    { destruct Hmin as [Hz|Hnf].
      - assert (kb = 32) by lia. replace kb with 32 in * by lia. lia.
      - assert (E : 2 ^ (kb + 1) = 2 * 2 ^ kb) by (apply pow2_succ; lia).
        unfold fits in Hnf. replace (32 - (prefixSize r - 1)) with (kb + 1) in Hnf by lia.
        assert (c mod 2 ^ (kb + 1) = 0) by (apply (mod_pow2_weaken c (kb + 1) k); lia).
        lia. }
    destruct (IH kb (c + 2 ^ kb) e (acc ++ [r])) as (bs & Hbs & Hchain & Hlen);
      try lia.
    { apply add_block_aligned; lia. }
    exists (r :: bs).
    rewrite (calculate_loop_step fuel c e acc r) by (assumption || lia).
    rewrite Hhigh. replace (c + 2 ^ kb - 1 + 1) with (c + 2 ^ kb) by ring.
    rewrite Hbs, chain_app_one.
    split; [reflexivity|]. split.
    + cbn [chain]. rewrite Hhigh, Hlow.
      replace (c + 2 ^ kb - 1 + 1) with (c + 2 ^ kb) by ring.
      repeat split; try lia; assumption.
    + cbn [List.length]. lia.
Qed.

(** While blocks are cut by the alignment of the cursor, each block
    leaves the cursor strictly better aligned; with the descending phase
    that follows, at most [62 - j] blocks remain from a cursor aligned to
    [2 ^ j]. *)
Lemma calculate_loop_ascending (fuel : nat) :
  forall j c e acc,
    1 <= c -> c <= e -> e < 2 ^ 32 ->
    0 <= j <= 31 -> c mod 2 ^ j = 0 ->
    62 - j <= Z.of_nat fuel ->
    exists bs,
      calculate_loop fuel c e acc = Return (Some (acc ++ bs)) /\
      chain c e bs /\ Z.of_nat (List.length bs) <= 62 - j.
Proof.
  induction fuel as [|fuel IH]; intros j c e acc H1 Hce He Hj Hal Hfuel; [lia|].
  destruct (getOptimalRange_spec c e ltac:(lia) Hce He)
    as (r & Hrun & Hp & _ & Hlow & Hhigh & [Hfal Hfbd] & Hmin).
  set (kb := 32 - prefixSize r) in *.
  pose proof (pow2_pos kb ltac:(lia)) as Hpos.
  pose proof (aligned_ge c kb ltac:(lia) H1 Hfal) as Hge.
  assert (Hkb : kb < 32) by (apply pow2_lt_inv; lia).
  assert (E : 2 ^ (kb + 1) = 2 * 2 ^ kb) by (apply pow2_succ; lia).
  destruct Hmin as [Hz|Hnf]; [lia|].
  unfold fits in Hnf. replace (32 - (prefixSize r - 1)) with (kb + 1) in Hnf by lia.
  rewrite (calculate_loop_step fuel c e acc r) by assumption.
  rewrite Hhigh. replace (c + 2 ^ kb - 1 + 1) with (c + 2 ^ kb) by ring.
  assert (Hcons : forall bs n,
             calculate_loop fuel (c + 2 ^ kb) e (acc ++ [r]) = Return (Some ((acc ++ [r]) ++ bs)) ->
             chain (c + 2 ^ kb) e bs -> Z.of_nat (List.length bs) <= n ->
             n + 1 <= 62 - j ->
             exists bs',
               calculate_loop fuel (c + 2 ^ kb) e (acc ++ [r]) = Return (Some (acc ++ bs')) /\
               chain c e bs' /\ Z.of_nat (List.length bs') <= 62 - j).
  { intros bs n Hbs Hchain Hlen Hn. exists (r :: bs).
    rewrite Hbs, chain_app_one. split; [reflexivity|]. split.
    - cbn [chain]. rewrite Hhigh, Hlow.
      replace (c + 2 ^ kb - 1 + 1) with (c + 2 ^ kb) by ring.
      repeat split; try lia; assumption.
    - cbn [List.length]. lia. }
  destruct (Z.eq_dec (c mod 2 ^ (kb + 1)) 0) as [Hal'|Hal'].
  - (* the block is cut by the end of the range *)
    assert (kb <= 30).
    { pose proof (aligned_ge c (kb + 1) ltac:(lia) H1 Hal').
      assert (kb + 1 < 32) by (apply pow2_lt_inv; lia). lia. }
    destruct (calculate_loop_descending fuel kb (c + 2 ^ kb) e (acc ++ [r]))
      as (bs & Hbs & Hchain & Hlen); try lia.
    { apply add_block_aligned; lia. }
    apply (Hcons bs kb); try assumption; lia.
  - (* the block is cut by the alignment of the cursor *)
    assert (j <= kb).
    { destruct (Z.le_gt_cases j kb); [assumption|]. exfalso. apply Hal'.
      apply (mod_pow2_weaken c (kb + 1) j); [lia | assumption]. }
    pose proof (add_block_more_aligned c kb ltac:(lia) Hfal Hal') as Hal''.
    destruct (Z.le_gt_cases (c + 2 ^ kb) e) as [Hin|Hout].
    + pose proof (aligned_ge (c + 2 ^ kb) (kb + 1) ltac:(lia) ltac:(lia) Hal'').
      assert (kb + 1 < 32) by (apply pow2_lt_inv; lia).
      destruct (IH (kb + 1) (c + 2 ^ kb) e (acc ++ [r]))
        as (bs & Hbs & Hchain & Hlen); try lia; try assumption.
      apply (Hcons bs (62 - (kb + 1))); try assumption; lia.
    + assert (A1 : e + 1 - (c + 2 ^ kb) < 2 ^ 0) by (rewrite Z.pow_0_r; lia).
      assert (A2 : (c + 2 ^ kb) mod 2 ^ 0 = 0) by (rewrite Z.pow_0_r; apply Z.mod_1_r).
      destruct (calculate_loop_descending fuel 0 (c + 2 ^ kb) e (acc ++ [r])
                  ltac:(lia) He ltac:(lia) ltac:(lia) A1 A2 ltac:(lia))
        as (bs & Hbs & Hchain & Hlen).
      apply (Hcons bs 0); try assumption; lia.
Qed.

(** The loop of [calculate] on an ordered pair of addresses: 62 turns
    are enough, and the blocks tile the range. *)
Lemma calculate_loop_total (fuel : nat) (s e : Z) :
  0 <= s -> s <= e -> e < 2 ^ 32 -> (62 <= fuel)%nat ->
  exists bs,
    calculate_loop fuel s e [] = Return (Some bs) /\
    chain s e bs /\ (List.length bs <= 62)%nat.
Proof.
  intros H0 Hse He Hfuel.
  destruct (Z.eq_dec s 0) as [->|Hs].
  - assert (A : 0 mod 2 ^ 33 = 0) by reflexivity.
    destruct (calculate_loop_descending fuel 33 0 e []
                ltac:(lia) He ltac:(lia) ltac:(lia) ltac:(lia) A ltac:(lia))
      as (bs & Hbs & Hchain & Hlen).
    exists bs. simpl in Hbs. repeat split; try assumption. lia.
  - assert (A : s mod 2 ^ 0 = 0) by (rewrite Z.pow_0_r; apply Z.mod_1_r).
    destruct (calculate_loop_ascending fuel 0 s e []
                ltac:(lia) Hse He ltac:(lia) A ltac:(lia))
      as (bs & Hbs & Hchain & Hlen).
    exists bs. simpl in Hbs. repeat split; try assumption. lia.
Qed.

End Decompose.

(** ** Consequences of a tiling *)

Section Chain.

Lemma chain_bounds (bs : list MaskRange) :
  forall c e b, chain c e bs -> In b bs ->
    c <= ipLow b /\ ipLow b <= ipHigh b <= e.
Proof.
  induction bs as [|a bs IH]; intros c e b Hch Hin; [contradiction|].
  cbn [chain] in Hch. destruct Hch as (Hlow & Hrange & Hrest).
  destruct Hin as [<-|Hin]; [lia|].
  destruct (IH _ _ _ Hrest Hin). lia.
Qed.

Lemma chain_nonempty (c e : Z) (bs : list MaskRange) :
  c <= e -> chain c e bs -> bs <> [].
Proof. intros Hce Hch ->. simpl in Hch. lia. Qed.

Lemma chain_contiguous (bs : list MaskRange) :
  forall c e, chain c e bs -> contiguous bs.
Proof.
  induction bs as [|a bs IH]; intros c e Hch i b b' Hb Hb'.
  - destruct i; discriminate.
  - cbn [chain] in Hch. destruct Hch as (Hlow & Hrange & Hrest).
    destruct i as [|i].
    + injection Hb as <-. destruct bs as [|a' bs']; [discriminate|].
      injection Hb' as <-. cbn [chain] in Hrest. lia.
    + apply (IH _ _ Hrest i); assumption.
Qed.

Lemma chain_ascending (bs : list MaskRange) :
  forall c e, chain c e bs -> ascending_disjoint bs.
Proof.
  intros c e Hch. split.
  - intros b Hin. destruct (chain_bounds bs c e b Hch Hin). lia.
  - revert c e Hch.
    induction bs as [|a bs IH]; intros c e Hch i j bi bj Hij Hi Hj.
    + destruct i; discriminate.
    + cbn [chain] in Hch. destruct Hch as (Hlow & Hrange & Hrest).
      destruct j as [|j]; [lia|]. cbn [nth_error] in Hj.
      destruct i as [|i].
      * injection Hi as <-. apply nth_error_In in Hj.
        destruct (chain_bounds bs _ e bj Hrest Hj). lia.
      * apply (IH _ _ Hrest i j); try assumption. lia.
Qed.

Lemma chain_covers (bs : list MaskRange) :
  forall c e, chain c e bs -> covers bs c e.
Proof.
  induction bs as [|a bs IH]; intros c e Hch x.
  - simpl in Hch. split; [lia|]. intros (b & [] & _).
  - cbn [chain] in Hch. destruct Hch as (Hlow & Hrange & Hrest).
    specialize (IH _ _ Hrest x). split.
    + intros Hx. destruct (Z.le_gt_cases x (ipHigh a)).
      * exists a. split; [left; reflexivity | lia].
      * destruct IH as [IH _]. destruct IH as (b & Hin & Hb); [lia|].
        exists b. split; [right; assumption | assumption].
    + intros (b & [<-|Hin] & Hb); [lia|].
      destruct IH as [_ IH]. assert (ipHigh a + 1 <= x <= e) by (apply IH; eauto). lia.
Qed.

Lemma chain_last (front : list MaskRange) :
  forall c e b, chain c e (front ++ [b]) -> ipHigh b = e.
Proof.
  induction front as [|a front IH]; intros c e b Hch.
  - cbn [app chain] in Hch. lia.
  - cbn [app chain] in Hch. destruct Hch as (_ & _ & Hrest). exact (IH _ _ _ Hrest).
Qed.

End Chain.

(** ** Addresses accepted by [toDecimal] *)

Section ValidAddress.

Lemma match_ip_split (s a b c d : string) :
  match_ip s = Some (a, b, c, d) -> split_dot s = [a; b; c; d].
Proof.
  unfold match_ip.
  destruct (split_dot s) as [|a' [|b' [|c' [|d' [|? ?]]]]]; try discriminate.
  destruct (octet_group a' && octet_group b' && octet_group c' && octet_group d');
    [|discriminate].
  intros H. injection H as -> -> -> ->. reflexivity.
Qed.

(** A string accepted by [isIp]: its four fields and their values. *)
Lemma isIp_inv (s : string) :
  isIp (VStr s) = true ->
  exists a b c d,
    match_ip s = Some (a, b, c, d) /\
    0 <= decimal_value a <= 255 /\ 0 <= decimal_value b <= 255 /\
    0 <= decimal_value c <= 255 /\ 0 <= decimal_value d <= 255.
Proof.
  unfold isIp. destruct (match_ip s) as [[[[a b] c] d]|]; [|discriminate].
  cbn [forallb]. unfold parseInt10. rewrite !andb_true_iff, !negb_true_iff, !orb_false_iff.
  rewrite !Z.ltb_ge. intros H. exists a, b, c, d. split; [reflexivity|]. lia.
Qed.

Lemma toDecimal_string (s a b c d : string) :
  isIp (VStr s) = true -> match_ip s = Some (a, b, c, d) ->
  toDecimal (VStr s) =
    Return (((decimal_value a * 256 + decimal_value b) * 256 + decimal_value c) * 256
            + decimal_value d).
Proof.
  intros Hip Hm. unfold toDecimal. rewrite Hip. cbn [negb].
  rewrite (match_ip_split s a b c d Hm). reflexivity.
Qed.

Lemma toDecimal_range (v : value) (n : Z) :
  valid_address v n -> 0 <= n < 2 ^ 32.
Proof.
  unfold valid_address. destruct v as [z|s].
  - unfold toDecimal. destruct (isDecimalIp (VNum z)) eqn:E; [|discriminate].
    intros H. injection H as ->.
    unfold isDecimalIp in E. rewrite !andb_true_iff, Z.leb_le, Z.leb_le in E. lia.
  - destruct (isIp (VStr s)) eqn:E.
    + destruct (isIp_inv s E) as (a & b & c & d & Hm & Ha & Hb & Hc & Hd).
      rewrite (toDecimal_string s a b c d E Hm). intros H. injection H as <-. lia.
    + unfold toDecimal. rewrite E. discriminate.
Qed.

Lemma calculate_valid (fuel : nat) (ipStart ipEnd : value) (s e : Z) :
  valid_address ipStart s -> valid_address ipEnd e -> s <= e ->
  calculate fuel ipStart ipEnd = calculate_loop fuel s e [].
Proof.
  unfold valid_address, calculate. intros -> -> Hse.
  cbn [bind try_or_null]. destruct (Z.ltb_spec e s); [lia | reflexivity].
Qed.

Lemma calculate_loop_fuel_mono (fuel : nat) :
  forall fuel' c e acc x,
    calculate_loop fuel c e acc = Return x -> (fuel <= fuel')%nat ->
    calculate_loop fuel' c e acc = Return x.
Proof.
  induction fuel as [|fuel IH]; intros fuel' c e acc x H Hle.
  - cbn [calculate_loop] in H. destruct (Z.leb_spec c e); [discriminate|].
    rewrite calculate_loop_done by lia. exact H.
  - destruct fuel' as [|fuel']; [lia|].
    cbn [calculate_loop] in *. destruct (c <=? e); [|exact H].
    destruct (getOptimalRange c e) as [[r|]| |]; cbn [bind] in *;
      try discriminate; try exact H.
    apply IH; [exact H | lia].
Qed.

End ValidAddress.

(** ** Range decomposition: coverage, optimality, termination *)

(** C1. For every pair of valid addresses [start <= end], [calculate]
    returns a non-empty list of blocks; each block's low address is the
    previous block's high address plus one, the blocks are in ascending
    order and do not overlap, and their union is exactly the inclusive
    range [start .. end]. *)
Theorem calculate_covers_range
    (fuel : nat) (ipStart ipEnd : value) (s e : Z) :
  valid_address ipStart s -> valid_address ipEnd e -> s <= e ->
  (62 <= fuel)%nat ->
  exists blocks,
    calculate fuel ipStart ipEnd = Return (Some blocks) /\
    blocks <> [] /\
    contiguous blocks /\
    ascending_disjoint blocks /\
    covers blocks s e.
Proof.
  intros Hs He Hse Hfuel.
  pose proof (toDecimal_range _ _ Hs) as Rs.
  pose proof (toDecimal_range _ _ He) as Re.
  destruct (calculate_loop_total fuel s e ltac:(lia) Hse ltac:(lia) Hfuel)
    as (bs & Hrun & Hchain & _).
  exists bs. rewrite (calculate_valid fuel ipStart ipEnd s e Hs He Hse).
  split; [exact Hrun|].
  split; [exact (chain_nonempty s e bs Hse Hchain)|].
  split; [exact (chain_contiguous bs s e Hchain)|].
  split; [exact (chain_ascending bs s e Hchain) | exact (chain_covers bs s e Hchain)].
Qed.

Lemma calculate_covers_range_witness :
  valid_address (VStr "10.0.1.255") 167772671 /\
  valid_address (VStr "10.0.3.255") 167773183 /\
  exists blocks,
    calculate 62 (VStr "10.0.1.255") (VStr "10.0.3.255") = Return (Some blocks) /\
    blocks <> [] /\ contiguous blocks /\ ascending_disjoint blocks /\
    covers blocks 167772671 167773183.
Proof.
  split; [reflexivity|]. split; [reflexivity|].
  apply (calculate_covers_range 62 (VStr "10.0.1.255") (VStr "10.0.3.255")
           167772671 167773183); [reflexivity | reflexivity | lia | lia].
Defined.

(** C2. For a cursor and an end address with [cursor <= end],
    [getOptimalRange] returns the block of the smallest prefix size among
    all sizes in [0, 32] whose [getMaskRange] block starts at the cursor and
    ends at or below the end address. *)
Theorem getOptimalRange_smallest_prefix (ipNum ipEndNum : Z) :
  0 <= ipNum -> ipNum <= ipEndNum -> ipEndNum <= 4294967295 ->
  exists r,
    getOptimalRange ipNum ipEndNum = Return (Some r) /\
    0 <= prefixSize r <= 32 /\
    getMaskRange ipNum (prefixSize r) = Return r /\
    ipLow r = ipNum /\ ipHigh r <= ipEndNum /\
    forall p m,
      0 <= p <= 32 -> getMaskRange ipNum p = Return m ->
      ipLow m = ipNum -> ipHigh m <= ipEndNum ->
      prefixSize r <= p.
Proof.
  intros H0 Hce He.
  destruct (getOptimalRange_spec ipNum ipEndNum H0 Hce ltac:(lia))
    as (r & Hrun & Hp & Hr & Hlow & Hhigh & Hfit & Hmin).
  exists r. split; [exact Hrun|]. split; [exact Hp|]. split; [exact Hr|].
  split; [exact Hlow|]. split; [destruct Hfit; lia|].
  intros p m Hpr Hm Hml Hmh.
  destruct (Z.le_gt_cases (prefixSize r) p) as [|Hlt]; [assumption|]. exfalso.
  destruct Hmin as [Hz|Hnf]; [lia|]. apply Hnf.
  apply (fits_mono ipNum ipEndNum p (prefixSize r - 1)); try lia.
  apply (fits_test ipNum ipEndNum p m); [lia | lia | exact Hm |].
  apply andb_true_iff. rewrite Z.eqb_eq, Z.leb_le. split; assumption.
Qed.

Lemma getOptimalRange_smallest_prefix_witness :
  exists r,
    getOptimalRange 167772672 167773183 = Return (Some r) /\
    0 <= prefixSize r <= 32 /\
    getMaskRange 167772672 (prefixSize r) = Return r /\
    ipLow r = 167772672 /\ ipHigh r <= 167773183 /\
    forall p m,
      0 <= p <= 32 -> getMaskRange 167772672 p = Return m ->
      ipLow m = 167772672 -> ipHigh m <= 167773183 ->
      prefixSize r <= p.
Proof.
  apply (getOptimalRange_smallest_prefix 167772672 167773183); lia.
Defined.

(** C3. [calculate] terminates for every valid [start <= end], also when
    [end] is 0xFFFFFFFF: 62 turns of the loop always suffice, the last
    block ends at [end], and the cursor that leaves the loop is
    [end + 1], computed without wrap-around, so it exceeds [end].  In
    particular the whole address space decomposes into the single block
    of prefix size 0. *)
Theorem calculate_terminates
    (fuel : nat) (ipStart ipEnd : value) (s e : Z) :
  valid_address ipStart s -> valid_address ipEnd e -> s <= e ->
  (62 <= fuel)%nat ->
  (exists front final,
     calculate fuel ipStart ipEnd = Return (Some (front ++ [final])) /\
     ipHigh final = e /\ e < ipHigh final + 1 /\
     calculate_loop fuel (ipHigh final + 1) e (front ++ [final])
       = Return (Some (front ++ [final]))) /\
  (exists b,
     calculate fuel (VStr "0.0.0.0") (VStr "255.255.255.255") = Return (Some [b]) /\
     prefixSize b = 0 /\ ipLow b = 0 /\ ipHigh b = 4294967295 /\
     ipHigh b + 1 = 4294967296).
Proof.
  intros Hs He Hse Hfuel.
  pose proof (toDecimal_range _ _ Hs) as Rs.
  pose proof (toDecimal_range _ _ He) as Re.
  split.
  - destruct (calculate_loop_total fuel s e ltac:(lia) Hse ltac:(lia) Hfuel)
      as (bs & Hrun & Hchain & _).
    destruct (exists_last (chain_nonempty s e bs Hse Hchain)) as (front & final & ->).
    pose proof (chain_last front s e final Hchain) as Hlast.
    exists front, final.
    rewrite (calculate_valid fuel ipStart ipEnd s e Hs He Hse).
    split; [exact Hrun|]. split; [exact Hlast|]. split; [lia|].
    apply calculate_loop_done. lia.
  - eexists.
    rewrite (calculate_valid fuel (VStr "0.0.0.0") (VStr "255.255.255.255") 0 4294967295)
      by (reflexivity || lia).
    split.
    + apply (calculate_loop_fuel_mono 1 fuel); [vm_compute; reflexivity | lia].
    + repeat split.
Qed.

Lemma calculate_terminates_witness :
  valid_address (VNum 4294967040) 4294967040 /\
  valid_address (VStr "255.255.255.255") 4294967295 /\
  (exists front final,
     calculate 62 (VNum 4294967040) (VStr "255.255.255.255")
       = Return (Some (front ++ [final])) /\
     ipHigh final = 4294967295 /\ 4294967295 < ipHigh final + 1 /\
     calculate_loop 62 (ipHigh final + 1) 4294967295 (front ++ [final])
       = Return (Some (front ++ [final]))) /\
  (exists b,
     calculate 62 (VStr "0.0.0.0") (VStr "255.255.255.255") = Return (Some [b]) /\
     prefixSize b = 0 /\ ipLow b = 0 /\ ipHigh b = 4294967295 /\
     ipHigh b + 1 = 4294967296).
Proof.
  split; [reflexivity|]. split; [reflexivity|].
  apply (calculate_terminates 62 (VNum 4294967040) (VStr "255.255.255.255")
           4294967040 4294967295); [reflexivity | reflexivity | lia | lia].
Defined.

(** ** Bounds on the work of a decomposition *)

(** C5, as stated, fails: the range 0.0.0.1 - 255.255.255.254 decomposes
    into 62 blocks, and the search from cursor 0 to the top of the address
    space examines the 33 prefix sizes 32, 31, ..., 0. *)
Lemma calculate_32_blocks_counterexample :
  valid_address (VNum 1) 1 /\ valid_address (VNum 4294967294) 4294967294 /\
  exists blocks res examined,
    calculate 62 (VNum 1) (VNum 4294967294) = Return (Some blocks) /\
    List.length blocks = 62%nat /\ ~ (List.length blocks <= 32)%nat /\
    getOptimalRange_trace 0 4294967295 = Return (res, examined) /\
    List.length examined = 33%nat /\ ~ (List.length examined <= 32)%nat.
Proof.
  split; [reflexivity|]. split; [reflexivity|].
  do 3 eexists.
  split; [vm_compute; reflexivity|].
  split; [reflexivity|]. split; [cbn [List.length]; lia|].
  split; [vm_compute; reflexivity|].
  split; [reflexivity | cbn [List.length]; lia].
Qed.

(** C5, amended. For every pair of valid addresses [start <= end] the
    list returned by [calculate] contains at most 62 blocks, and every
    block search with a cursor in the range examines at most 33 candidate
    prefix sizes. *)
Theorem calculate_work_bounds
    (fuel : nat) (ipStart ipEnd : value) (s e : Z) :
  valid_address ipStart s -> valid_address ipEnd e -> s <= e ->
  (62 <= fuel)%nat ->
  exists blocks,
    calculate fuel ipStart ipEnd = Return (Some blocks) /\
    (List.length blocks <= 62)%nat /\
    forall cursor, s <= cursor <= e ->
      exists r examined,
        getOptimalRange_trace cursor e = Return (Some r, examined) /\
        getOptimalRange cursor e = Return (Some r) /\
        (List.length examined <= 33)%nat.
Proof.
  intros Hs He Hse Hfuel.
  pose proof (toDecimal_range _ _ Hs) as Rs.
  pose proof (toDecimal_range _ _ He) as Re.
  destruct (calculate_loop_total fuel s e ltac:(lia) Hse ltac:(lia) Hfuel)
    as (bs & Hrun & _ & Hlen).
  exists bs. rewrite (calculate_valid fuel ipStart ipEnd s e Hs He Hse).
  split; [exact Hrun|]. split; [exact Hlen|].
  intros c Hc.
  destruct (getOptimalRange_spec c e ltac:(lia) ltac:(lia) ltac:(lia)) as (r & Hr & _).
  pose proof Hr as Hr'.
  unfold getOptimalRange in Hr'.
  destruct (getOptimalRange_trace c e) as [[res tr]| |] eqn:Htr; try discriminate.
  cbn [bind fst] in Hr'. injection Hr' as ->.
  exists r, tr. split; [reflexivity|]. split; [exact Hr|].
  apply (getOptimalRange_loop_examined 33 c e None [] (Some r) tr Htr).
Qed.

Lemma calculate_work_bounds_witness :
  valid_address (VNum 1) 1 /\ valid_address (VStr "255.255.255.254") 4294967294 /\
  exists blocks,
    calculate 62 (VNum 1) (VStr "255.255.255.254") = Return (Some blocks) /\
    (List.length blocks <= 62)%nat /\
    forall cursor, 1 <= cursor <= 4294967294 ->
      exists r examined,
        getOptimalRange_trace cursor 4294967294 = Return (Some r, examined) /\
        getOptimalRange cursor 4294967294 = Return (Some r) /\
        (List.length examined <= 33)%nat.
Proof.
  split; [reflexivity|]. split; [reflexivity|].
  apply (calculate_work_bounds 62 (VNum 1) (VStr "255.255.255.254") 1 4294967294);
    [reflexivity | reflexivity | lia | lia].
Defined.

(** ** Block descriptors *)

(** C6. For every address in [0, 4294967295] and every prefix size in
    [0, 32], the descriptor returned by [getMaskRange] satisfies
    [ipLow <= ipHigh], [ipHigh - ipLow + 1 = 2 ^ (32 - prefixSize)],
    [ipLow & prefixMask = ipLow], [prefixMask | invertedMask = 0xFFFFFFFF]
    and [prefixMask & invertedMask = 0]. *)
Theorem getMaskRange_invariants (ipNum p : Z) :
  0 <= ipNum <= 4294967295 -> 0 <= p <= 32 ->
  exists r,
    getMaskRange ipNum p = Return r /\
    prefixSize r = p /\
    ipLow r <= ipHigh r /\
    ipHigh r - ipLow r + 1 = 2 ^ (32 - prefixSize r) /\
    Z.land (ipLow r) (prefixMask r) = ipLow r /\
    Z.lor (prefixMask r) (invertedMask r) = 4294967295 /\
    Z.land (prefixMask r) (invertedMask r) = 0.
Proof.
  intros Hc Hp.
  destruct (getMaskRange_spec ipNum p ltac:(lia) Hp)
    as (r & Hr & Hps & _ & Hpm & Him & Hlow & Hhigh).
  pose proof (pow2_pos (32 - p) ltac:(lia)) as Hpos.
  exists r. split; [exact Hr|]. split; [exact Hps|].
  split; [lia|]. split; [rewrite Hps; lia|].
  rewrite Hpm, Him, Hlow. split; [|split].
  - rewrite <- (land_prefix_mask_mod ipNum (32 - p)) by lia.
    rewrite <- Z.land_assoc, Z.land_diag. reflexivity.
  - clear - Hp. by_cases_on p 0 33%nat.
  - clear - Hp. by_cases_on p 0 33%nat.
Qed.

Lemma getMaskRange_invariants_witness :
  exists r,
    getMaskRange 167772205 24 = Return r /\
    prefixSize r = 24 /\
    ipLow r <= ipHigh r /\
    ipHigh r - ipLow r + 1 = 2 ^ (32 - prefixSize r) /\
    Z.land (ipLow r) (prefixMask r) = ipLow r /\
    Z.lor (prefixMask r) (invertedMask r) = 4294967295 /\
    Z.land (prefixMask r) (invertedMask r) = 0.
Proof.
  apply (getMaskRange_invariants 167772205 24); lia.
Defined.

(** ** The defensive null branch *)

Lemma calculate_loop_not_null (fuel : nat) :
  forall c e acc,
    0 <= c -> e < 2 ^ 32 -> calculate_loop fuel c e acc <> Return None.
Proof.
  induction fuel as [|fuel IH]; intros c e acc H0 He.
  - cbn [calculate_loop]. destruct (c <=? e); discriminate.
  - destruct (Z.le_gt_cases c e) as [Hce|Hce].
    + destruct (getOptimalRange_spec c e H0 Hce He) as (r & Hr & Hp & _ & _ & Hhigh & _).
      rewrite (calculate_loop_step fuel c e acc r Hce Hr).
      apply IH; [|exact He].
      pose proof (pow2_pos (32 - prefixSize r) ltac:(lia)). lia.
    + rewrite calculate_loop_done by lia. discriminate.
Qed.

(** C9. For integers [0 <= ipNum <= ipEndNum <= 4294967295] the
    candidate of prefix size 32 starts at [ipNum] and ends at or below
    [ipEndNum], so [getOptimalRange] returns a block, never null, and
    [calculate] never takes its null branch on valid ordered input. *)
Theorem getOptimalRange_never_null (ipNum ipEndNum : Z) :
  0 <= ipNum -> ipNum <= ipEndNum -> ipEndNum <= 4294967295 ->
  (exists m, getMaskRange ipNum 32 = Return m /\
             ipLow m = ipNum /\ ipHigh m <= ipEndNum) /\
  (exists r, getOptimalRange ipNum ipEndNum = Return (Some r)) /\
  getOptimalRange ipNum ipEndNum <> Return None /\
  (forall fuel ipStart ipEnd,
      valid_address ipStart ipNum -> valid_address ipEnd ipEndNum ->
      calculate fuel ipStart ipEnd <> Return None).
Proof.
  intros H0 Hce He.
  destruct (getOptimalRange_spec ipNum ipEndNum H0 Hce ltac:(lia)) as (r & Hr & _).
  split; [|split; [|split]].
  - destruct (getMaskRange_spec ipNum 32 ltac:(lia) ltac:(lia))
      as (m & Hm & _ & _ & _ & _ & Hlow & Hhigh).
    exists m. split; [exact Hm|].
    replace (32 - 32) with 0 in * by ring.
    rewrite Z.pow_0_r, Z.mod_1_r in *. lia.
  - exists r. exact Hr.
  - rewrite Hr. discriminate.
  - intros fuel ipStart ipEnd Hs Hend.
    rewrite (calculate_valid fuel ipStart ipEnd ipNum ipEndNum Hs Hend Hce).
    apply calculate_loop_not_null; lia.
Qed.

Lemma getOptimalRange_never_null_witness :
  (exists m, getMaskRange 167772671 32 = Return m /\
             ipLow m = 167772671 /\ ipHigh m <= 167773183) /\
  (exists r, getOptimalRange 167772671 167773183 = Return (Some r)) /\
  getOptimalRange 167772671 167773183 <> Return None /\
  (forall fuel ipStart ipEnd,
      valid_address ipStart 167772671 -> valid_address ipEnd 167773183 ->
      calculate fuel ipStart ipEnd <> Return None).
Proof.
  apply (getOptimalRange_never_null 167772671 167773183); lia.
Defined.

(** ** Prefix sizes outside [0, 32] *)

Section OutOfRange.










End OutOfRange.



(** ** Prefix inference *)

Section PrefixInference.

Lemma next_prefix (p : Z) :
  0 <= p < 32 ->
  ushr0 (getPrefixMask p + shl32 1 (32 - (p + 1))) = getPrefixMask (p + 1).
Proof. intros Hp. by_cases_on p 0 32%nat. Qed.

(** Containing the prefix mask of size [p] means being at least that
    mask. *)
Lemma contains_prefix_ge (m p : Z) :
  0 <= m < 2 ^ 32 -> 0 <= p <= 32 ->
  (contains_prefix m p <-> 2 ^ 32 - 2 ^ (32 - p) <= m).
Proof.
  intros Hm Hp. unfold contains_prefix.
  rewrite getPrefixMask_closed by assumption.
  rewrite land_prefix_mask by lia.
  set (k := 32 - p).
  pose proof (pow2_pos k ltac:(lia)) as Hpos.
  assert (E : 2 ^ 32 = 2 ^ k * 2 ^ (32 - k)).
  { rewrite <- Z.pow_add_r by lia. f_equal. lia. }
  pose proof (Z.div_mod m (2 ^ k) ltac:(lia)) as D.
  pose proof (Z.mod_pos_bound m (2 ^ k) Hpos) as B.
  split; intros H; [lia|].
  assert (m / 2 ^ k < 2 ^ (32 - k)) by (apply Z.div_lt_upper_bound; lia).
  assert (2 ^ (32 - k) - 1 <= m / 2 ^ k) by (apply Z.div_le_lower_bound; lia).
  replace (m / 2 ^ k) with (2 ^ (32 - k) - 1) by lia. lia.
Qed.

Lemma contains_prefix_mono (m p q : Z) :
  0 <= m < 2 ^ 32 -> 0 <= q <= p -> p <= 32 ->
  contains_prefix m p -> contains_prefix m q.
Proof.
  intros Hm Hq Hp H.
  apply contains_prefix_ge in H; [|assumption|lia].
  apply contains_prefix_ge; [assumption|lia|].
  assert (2 ^ (32 - p) <= 2 ^ (32 - q)) by (apply Z.pow_le_mono_r; lia). lia.
Qed.

(** The test of the loop body. *)
Lemma cidr_test (m p : Z) :
  0 <= m < 2 ^ 32 -> 0 <= p <= 32 ->
  ((ushr0 (and32 m (getPrefixMask p)) =? getPrefixMask p) = true
   <-> contains_prefix m p).
Proof.
  intros Hm Hp. unfold contains_prefix.
  rewrite ushr0_and32, Z.eqb_eq.
  assert (Hpow : 0 < 2 ^ (32 - p) <= 2 ^ 32).
  { split; [apply pow2_pos; lia | apply Z.pow_le_mono_r; lia]. }
  rewrite (Z.mod_small m), (Z.mod_small (getPrefixMask p)); [reflexivity| |].
  - rewrite getPrefixMask_closed, two32_pow by assumption. lia.
  - rewrite two32_pow. lia.
Qed.

(** Invariant of the ascending loop: [prefix] is the prefix mask of the
    current size and the mask contains it. *)
Lemma calculateCIDRPrefix_loop_spec (n : nat) :
  forall m p,
    0 <= m < 2 ^ 32 -> 0 <= p -> p = 32 - Z.of_nat n ->
    contains_prefix m p ->
    let q := calculateCIDRPrefix_loop n m (getPrefixMask p) p in
    p <= q <= 32 /\ contains_prefix m q /\ (q < 32 -> ~ contains_prefix m (q + 1)).
Proof.
  induction n as [|n IH]; intros m p Hm H0 Hp Hc; cbn zeta.
  - cbn [calculateCIDRPrefix_loop]. repeat split; try lia; assumption.
  - cbn [calculateCIDRPrefix_loop]. rewrite next_prefix by lia.
    pose proof (cidr_test m (p + 1) Hm ltac:(lia)) as Htest.
    destruct (ushr0 (and32 m (getPrefixMask (p + 1))) =? getPrefixMask (p + 1)).
    + cbn [negb].
      destruct (IH m (p + 1) Hm ltac:(lia) ltac:(lia)) as (Hq & Hcq & Hnext).
      { apply Htest. reflexivity. }
      repeat split; try lia; assumption.
    + cbn [negb]. repeat split; try lia; try assumption.
      intros _ Hcontra. apply Htest in Hcontra. discriminate.
Qed.

Lemma contains_prefix_bits (m p : Z) :
  0 <= m < 2 ^ 32 -> 0 <= p <= 32 ->
  (contains_prefix m p <-> forall i, 32 - p <= i < 32 -> Z.testbit m i = true).
Proof.
  intros Hm Hp. unfold contains_prefix. rewrite getPrefixMask_closed by assumption.
  split.
  - intros H i Hi.
    assert (B : Z.testbit (Z.land m (2 ^ 32 - 2 ^ (32 - p))) i = true).
    { rewrite H, testbit_prefix_mask by lia.
      destruct (Z.leb_spec (32 - p) i), (Z.ltb_spec i 32); try lia; reflexivity. }
    rewrite Z.land_spec in B. apply andb_true_iff in B. tauto.
  - intros H. apply Z.bits_inj'. intros i Hi.
    rewrite Z.land_spec, testbit_prefix_mask by lia.
    destruct (Z.leb_spec (32 - p) i), (Z.ltb_spec i 32); cbn [andb];
      rewrite ?andb_false_r, ?andb_true_r; try reflexivity.
    apply H. lia.
Qed.

Lemma leading_ones_of_contains (m q : Z) :
  0 <= m < 2 ^ 32 -> 0 <= q <= 32 ->
  contains_prefix m q -> (q < 32 -> ~ contains_prefix m (q + 1)) ->
  leading_ones m q.
Proof.
  intros Hm Hq Hc Hn. split.
  - apply contains_prefix_bits; assumption.
  - intros Hlt. destruct (Z.testbit m (31 - q)) eqn:B; [|reflexivity].
    exfalso. apply (Hn Hlt). apply contains_prefix_bits; [assumption|lia|].
    intros i Hi. destruct (Z.eq_dec i (31 - q)) as [->|]; [exact B|].
    apply (proj1 (contains_prefix_bits m q Hm Hq) Hc). lia.
Qed.

Lemma leading_ones_unique (m p q : Z) :
  0 <= p <= 32 -> 0 <= q <= 32 ->
  leading_ones m p -> leading_ones m q -> p = q.
Proof.
  intros Hp Hq [P1 P0] [Q1 Q0].
  destruct (Z.lt_trichotomy p q) as [Hlt|[Heq|Hgt]]; [|assumption|].
  - specialize (P0 ltac:(lia)). rewrite Q1 in P0 by lia. discriminate.
  - specialize (Q0 ltac:(lia)). rewrite P1 in Q0 by lia. discriminate.
Qed.

(** The prefix size inferred from a 32-bit mask. *)
Lemma inferred_prefix (m : Z) :
  0 <= m < 2 ^ 32 ->
  let q := calculateCIDRPrefix_loop 32 m 0 0 in
  0 <= q <= 32 /\ contains_prefix m q /\
  (forall p, 0 <= p <= 32 -> contains_prefix m p -> p <= q) /\
  leading_ones m q.
Proof.
  intros Hm.
  pose proof (calculateCIDRPrefix_loop_spec 32 m 0 Hm ltac:(lia) ltac:(lia)) as H.
  change (getPrefixMask 0) with 0 in H. cbn zeta in *.
  destruct H as (Hq & Hc & Hn).
  { unfold contains_prefix. change (getPrefixMask 0) with 0. apply Z.land_0_r. }
  split; [lia|]. split; [exact Hc|]. split.
  - intros p Hp Hcp.
    destruct (Z.le_gt_cases p (calculateCIDRPrefix_loop 32 m 0 0)) as [|Hgt];
      [assumption|]. exfalso.
    apply Hn; [lia|].
    apply (contains_prefix_mono m p); try assumption; lia.
  - apply leading_ones_of_contains; try assumption; lia.
Qed.

End PrefixInference.

(** C8. For every valid address and every 32-bit mask value,
    [calculateCIDRPrefix] returns a block without raising an error; its
    prefix size is the largest [p] in [0, 32] such that the mask contains
    the prefix mask of size [p], which is the length of the leading run
    of one-bits of the mask.  The bits below that run and its terminating
    zero are not inspected: any other mask that agrees on those leading
    bits gives the same result. *)
Theorem calculateCIDRPrefix_leading_run (ip subnetMask : value) (ipNum m : Z) :
  valid_address ip ipNum -> valid_address subnetMask m ->
  exists r,
    calculateCIDRPrefix ip subnetMask = Return (Some r) /\
    0 <= prefixSize r <= 32 /\
    getMaskRange ipNum (prefixSize r) = Return r /\
    contains_prefix m (prefixSize r) /\
    (forall p, 0 <= p <= 32 -> contains_prefix m p -> p <= prefixSize r) /\
    leading_ones m (prefixSize r) /\
    (forall subnetMask' m',
        valid_address subnetMask' m' ->
        (forall i, 31 - prefixSize r <= i < 32 -> Z.testbit m' i = Z.testbit m i) ->
        calculateCIDRPrefix ip subnetMask' = Return (Some r)).
Proof.
  intros Hip Hmask.
  pose proof (toDecimal_range _ _ Hip) as Rip.
  pose proof (toDecimal_range _ _ Hmask) as Rm.
  destruct (inferred_prefix m Rm) as (Hq & Hc & Hmax & Hlead).
  set (q := calculateCIDRPrefix_loop 32 m 0 0) in *.
  destruct (getMaskRange_spec ipNum q Rip Hq) as (r & Hr & Hps & _).
  assert (Hrun : forall v n, valid_address v n ->
            calculateCIDRPrefix ip v
            = r' <- getMaskRange ipNum (calculateCIDRPrefix_loop 32 n 0 0) ;; Return (Some r')).
  { intros v n Hv. unfold valid_address in *. unfold calculateCIDRPrefix.
    rewrite Hip, Hv. reflexivity. }
  exists r. rewrite (Hrun subnetMask m Hmask). fold q. rewrite Hr, Hps.
  split; [reflexivity|]. split; [exact Hq|]. split; [exact Hr|].
  split; [exact Hc|]. split; [exact Hmax|]. split; [exact Hlead|].
  intros v m' Hv Hbits.
  pose proof (toDecimal_range _ _ Hv) as Rm'.
  destruct (inferred_prefix m' Rm') as (Hq' & _ & _ & Hlead').
  assert (Hsame : leading_ones m' q).
  { destruct Hlead as [L1 L0]. split.
    - intros i Hi. rewrite Hbits by lia. apply L1. exact Hi.
    - intros Hlt. rewrite Hbits by lia. apply L0. exact Hlt. }
  rewrite (Hrun v m' Hv).
  rewrite (leading_ones_unique m' _ q Hq' Hq Hlead' Hsame), Hr. reflexivity.
Qed.

Lemma calculateCIDRPrefix_leading_run_witness :
  valid_address (VStr "10.0.0.45") 167772205 /\
  valid_address (VStr "255.255.0.255") 4294902015 /\
  exists r,
    calculateCIDRPrefix (VStr "10.0.0.45") (VStr "255.255.0.255") = Return (Some r) /\
    0 <= prefixSize r <= 32 /\
    getMaskRange 167772205 (prefixSize r) = Return r /\
    contains_prefix 4294902015 (prefixSize r) /\
    (forall p, 0 <= p <= 32 -> contains_prefix 4294902015 p -> p <= prefixSize r) /\
    leading_ones 4294902015 (prefixSize r) /\
    (forall subnetMask' m',
        valid_address subnetMask' m' ->
        (forall i, 31 - prefixSize r <= i < 32 ->
                   Z.testbit m' i = Z.testbit 4294902015 i) ->
        calculateCIDRPrefix (VStr "10.0.0.45") subnetMask' = Return (Some r)).
Proof.
  split; [reflexivity|]. split; [reflexivity|].
  apply (calculateCIDRPrefix_leading_run (VStr "10.0.0.45") (VStr "255.255.0.255")
           167772205 4294902015); reflexivity.
Defined.

(** ** Dotted-decimal strings *)

Section Strings.

Lemma append_nil_r (s : string) : (s ++ EmptyString)%string = s.
Proof. induction s as [|c s IH]; simpl; [reflexivity | rewrite IH; reflexivity]. Qed.

Lemma append_assoc (a b c : string) : ((a ++ b) ++ c)%string = (a ++ b ++ c)%string.
Proof. induction a as [|x a IH]; simpl; [reflexivity | rewrite IH; reflexivity]. Qed.

Lemma split_dot_aux_nonempty (s : string) :
  forall cur, split_dot_aux cur s <> [].
Proof.
  induction s as [|c s IH]; intros cur; cbn [split_dot_aux]; [discriminate|].
  destruct (Ascii.eqb c "."); [discriminate | apply IH].
Qed.

Lemma join_split_dot_aux (s : string) :
  forall cur, join_dot (split_dot_aux cur s) = (cur ++ s)%string.
Proof.
  induction s as [|c s IH]; intros cur; cbn [split_dot_aux].
  - simpl. symmetry. apply append_nil_r.
  - destruct (Ascii.eqb_spec c ".") as [->|Hc].
    + cbn [join_dot]. specialize (IH EmptyString).
      destruct (split_dot_aux EmptyString s) eqn:E; [exfalso; exact (split_dot_aux_nonempty s _ E)|].
      rewrite IH. reflexivity.
    + rewrite IH, append_assoc. reflexivity.
Qed.

(** A string that matches the pattern of [isIp] is its four captures
    joined by dots. *)
Lemma match_ip_join (s a b c d : string) :
  match_ip s = Some (a, b, c, d) ->
  s = (a ++ "." ++ b ++ "." ++ c ++ "." ++ d)%string.
Proof.
  intros H. apply match_ip_split in H.
  pose proof (join_split_dot_aux s EmptyString) as J.
  fold (split_dot s) in J. rewrite H in J. cbn [join_dot] in J.
  simpl in J. rewrite <- J. reflexivity.
Qed.

Lemma is_digit_not_dot (c : ascii) : is_digit c = true -> Ascii.eqb c "." = false.
Proof.
  intros H. destruct (Ascii.eqb_spec c ".") as [->|]; [discriminate H | reflexivity].
Qed.

Lemma split_dot_aux_digits (a : string) :
  forall cur rest,
    all_digits a = true ->
    split_dot_aux cur (a ++ rest) = split_dot_aux (cur ++ a) rest.
Proof.
  induction a as [|x a IH]; intros cur rest H.
  - simpl. rewrite append_nil_r. reflexivity.
  - cbn [all_digits] in H. apply andb_true_iff in H. destruct H as [Hx Ha].
    cbn [append split_dot_aux]. rewrite (is_digit_not_dot x Hx).
    rewrite IH by exact Ha. rewrite append_assoc. reflexivity.
Qed.

Lemma split_dot_field (a rest : string) :
  all_digits a = true ->
  split_dot_aux EmptyString (a ++ "." ++ rest) = a :: split_dot_aux EmptyString rest.
Proof.
  intros H. rewrite split_dot_aux_digits by exact H. reflexivity.
Qed.

Lemma split_dot_join4 (a b c d : string) :
  all_digits a = true -> all_digits b = true ->
  all_digits c = true -> all_digits d = true ->
  split_dot (a ++ "." ++ b ++ "." ++ c ++ "." ++ d) = [a; b; c; d].
Proof.
  intros Ha Hb Hc Hd. unfold split_dot.
  rewrite !split_dot_field by assumption.
  rewrite <- (append_nil_r d) at 1.
  rewrite split_dot_aux_digits by exact Hd. reflexivity.
Qed.

(** Digits and their values. *)
Lemma is_digit_inv (c : ascii) :
  is_digit c = true ->
  exists d, 0 <= d <= 9 /\ c = digit_char d /\ digit_value c = d.
Proof.
  unfold is_digit, digit_char, digit_value. intros H.
  apply andb_true_iff in H. destruct H as [Hlo Hhi].
  apply Nat.leb_le in Hlo, Hhi.
  exists (Z.of_nat (nat_of_ascii c) - 48). split; [lia|]. split; [|reflexivity].
  replace (Z.to_nat (48 + (Z.of_nat (nat_of_ascii c) - 48))) with (nat_of_ascii c) by lia.
  symmetry. apply ascii_nat_embedding.
Qed.

Lemma digit_char_zero (d : Z) :
  0 <= d <= 9 -> (Ascii.eqb (digit_char d) "0" = true <-> d = 0).
Proof.
  intros Hd.
  assert (E : Ascii.eqb (digit_char d) "0" = (d =? 0)).
  { assert (H : (if Bool.eqb (Ascii.eqb (digit_char d) "0") (d =? 0) then 0 else 1) = 0)
      by (by_cases_on d 0 10%nat).
    destruct (Ascii.eqb (digit_char d) "0"), (d =? 0); simpl in H;
      try reflexivity; discriminate. }
  rewrite E. apply Z.eqb_eq.
Qed.

Lemma decimal_value_1 (c1 : ascii) :
  decimal_value (String c1 EmptyString) = digit_value c1.
Proof. unfold decimal_value. simpl. lia. Qed.

Lemma decimal_value_2 (c1 c2 : ascii) :
  decimal_value (String c1 (String c2 EmptyString)) = digit_value c1 * 10 + digit_value c2.
Proof. unfold decimal_value. simpl. lia. Qed.

Lemma decimal_value_3 (c1 c2 c3 : ascii) :
  decimal_value (String c1 (String c2 (String c3 EmptyString))) =
  (digit_value c1 * 10 + digit_value c2) * 10 + digit_value c3.
Proof. unfold decimal_value. simpl. lia. Qed.

(** Rendering the value of a canonical digit group gives the group
    back. *)
Lemma string_of_number_decimal_value (a : string) :
  octet_group a = true -> canonical_octet a = true ->
  string_of_number (decimal_value a) = a.
Proof.
  unfold octet_group. rewrite !andb_true_iff.
  intros [[Hd Hmin] Hmax] Hcan.
  destruct a as [|c1 [|c2 [|c3 [|c4 rest]]]]; try discriminate.
  - cbn [all_digits] in Hd. rewrite andb_true_r in Hd.
    destruct (is_digit_inv c1 Hd) as (d1 & R1 & -> & V1).
    rewrite decimal_value_1, V1. unfold string_of_number.
    destruct (Z.ltb_spec d1 10); [reflexivity | lia].
  - cbn [all_digits] in Hd. rewrite andb_true_r in Hd.
    apply andb_true_iff in Hd. destruct Hd as [Hd1 Hd2].
    destruct (is_digit_inv c1 Hd1) as (d1 & R1 & -> & V1).
    destruct (is_digit_inv c2 Hd2) as (d2 & R2 & -> & V2).
    cbn [canonical_octet] in Hcan. apply negb_true_iff in Hcan.
    assert (d1 <> 0).
    { intros ->. rewrite (proj2 (digit_char_zero 0 R1)) in Hcan by reflexivity. discriminate. }
    rewrite decimal_value_2, V1, V2. unfold string_of_number.
    destruct (Z.ltb_spec (d1 * 10 + d2) 10); [lia|].
    destruct (Z.ltb_spec (d1 * 10 + d2) 100); [|lia].
    replace ((d1 * 10 + d2) / 10) with d1 by (Z.div_mod_to_equations; lia).
    replace ((d1 * 10 + d2) mod 10) with d2 by (Z.div_mod_to_equations; lia).
    reflexivity.
  - cbn [all_digits] in Hd. rewrite andb_true_r in Hd.
    apply andb_true_iff in Hd. destruct Hd as [Hd1 Hd].
    apply andb_true_iff in Hd. destruct Hd as [Hd2 Hd3].
    destruct (is_digit_inv c1 Hd1) as (d1 & R1 & -> & V1).
    destruct (is_digit_inv c2 Hd2) as (d2 & R2 & -> & V2).
    destruct (is_digit_inv c3 Hd3) as (d3 & R3 & -> & V3).
    cbn [canonical_octet] in Hcan. apply negb_true_iff in Hcan.
    assert (d1 <> 0).
    { intros ->. rewrite (proj2 (digit_char_zero 0 R1)) in Hcan by reflexivity. discriminate. }
    rewrite decimal_value_3, V1, V2, V3. unfold string_of_number.
    destruct (Z.ltb_spec ((d1 * 10 + d2) * 10 + d3) 10); [lia|].
    destruct (Z.ltb_spec ((d1 * 10 + d2) * 10 + d3) 100); [lia|].
    replace (((d1 * 10 + d2) * 10 + d3) / 100) with d1 by (Z.div_mod_to_equations; lia).
    replace (((d1 * 10 + d2) * 10 + d3) / 10 mod 10) with d2 by (Z.div_mod_to_equations; lia).
    replace (((d1 * 10 + d2) * 10 + d3) mod 10) with d3 by (Z.div_mod_to_equations; lia).
    reflexivity.
Qed.

(** The rendering of an octet is a canonical digit group of the same
    value. *)
Lemma string_of_number_octet (v : Z) :
  0 <= v <= 255 ->
  all_digits (string_of_number v) = true /\
  octet_group (string_of_number v) = true /\
  canonical_octet (string_of_number v) = true /\
  decimal_value (string_of_number v) = v.
Proof.
  intros Hv.
  assert (H : (if all_digits (string_of_number v) && octet_group (string_of_number v)
                  && canonical_octet (string_of_number v)
                  && (decimal_value (string_of_number v) =? v) then 0 else 1) = 0)
    by (by_cases_on v 0 256%nat).
  destruct (all_digits (string_of_number v)), (octet_group (string_of_number v)),
    (canonical_octet (string_of_number v)),
    (Z.eqb_spec (decimal_value (string_of_number v)) v);
    simpl in H; try discriminate; auto.
Qed.

End Strings.

(** ** The address codec *)

Section RoundTrip.

Lemma match_ip_groups (s a b c d : string) :
  match_ip s = Some (a, b, c, d) ->
  octet_group a = true /\ octet_group b = true /\
  octet_group c = true /\ octet_group d = true.
Proof.
  unfold match_ip.
  destruct (split_dot s) as [|a' [|b' [|c' [|d' [|? ?]]]]]; try discriminate.
  destruct (octet_group a' && octet_group b' && octet_group c' && octet_group d') eqn:E;
    [|discriminate].
  intros H. injection H as <- <- <- <-.
  rewrite !andb_true_iff in E. tauto.
Qed.

(** [toString] renders the four octets of a number, most significant
    first. *)
Lemma toString_of_octets (va vb vc vd : Z) :
  0 <= va <= 255 -> 0 <= vb <= 255 -> 0 <= vc <= 255 -> 0 <= vd <= 255 ->
  toString (VNum (((va * 256 + vb) * 256 + vc) * 256 + vd)) =
  Return (string_of_number va ++ "." ++ string_of_number vb ++ "."
          ++ string_of_number vc ++ "." ++ string_of_number vd)%string.
Proof.
  intros Ha Hb Hc Hd.
  rewrite toString_in_range by (unfold two32; lia).
  cbn [toString_loop]. unfold rem, floor_div.
  set (n := ((va * 256 + vb) * 256 + vc) * 256 + vd).
  assert (E0 : Z.rem n 256 = vd)
    by (rewrite Z.rem_mod_nonneg by lia; unfold n; Z.div_mod_to_equations; lia).
  assert (D1 : n / 256 = (va * 256 + vb) * 256 + vc)
    by (unfold n; Z.div_mod_to_equations; lia).
  rewrite E0, D1.
  assert (E1 : Z.rem ((va * 256 + vb) * 256 + vc) 256 = vc)
    by (rewrite Z.rem_mod_nonneg by lia; Z.div_mod_to_equations; lia).
  assert (D2 : ((va * 256 + vb) * 256 + vc) / 256 = va * 256 + vb)
    by (Z.div_mod_to_equations; lia).
  rewrite E1, D2.
  assert (E2 : Z.rem (va * 256 + vb) 256 = vb)
    by (rewrite Z.rem_mod_nonneg by lia; Z.div_mod_to_equations; lia).
  assert (D3 : (va * 256 + vb) / 256 = va) by (Z.div_mod_to_equations; lia).
  rewrite E2, D3.
  assert (E3 : Z.rem va 256 = va)
    by (rewrite Z.rem_mod_nonneg by lia; Z.div_mod_to_equations; lia).
  rewrite E3. reflexivity.
Qed.

(** What [toString] returns is accepted by [isIp], is canonical, and
    converts back to the number it renders. *)
Lemma rendered_address (va vb vc vd : Z) :
  0 <= va <= 255 -> 0 <= vb <= 255 -> 0 <= vc <= 255 -> 0 <= vd <= 255 ->
  let t := (string_of_number va ++ "." ++ string_of_number vb ++ "."
            ++ string_of_number vc ++ "." ++ string_of_number vd)%string in
  isIp (VStr t) = true /\ canonical t = true /\
  toDecimal (VStr t) = Return (((va * 256 + vb) * 256 + vc) * 256 + vd).
Proof.
  intros Ha Hb Hc Hd t.
  destruct (string_of_number_octet va Ha) as (Da & Ga & Ca & Va).
  destruct (string_of_number_octet vb Hb) as (Db & Gb & Cb & Vb).
  destruct (string_of_number_octet vc Hc) as (Dc & Gc & Cc & Vc).
  destruct (string_of_number_octet vd Hd) as (Dd & Gd & Cd & Vd).
  assert (Hm : match_ip t = Some (string_of_number va, string_of_number vb,
                                  string_of_number vc, string_of_number vd)).
  { unfold match_ip, t. rewrite split_dot_join4 by assumption.
    rewrite Ga, Gb, Gc, Gd. reflexivity. }
  assert (Hip : isIp (VStr t) = true).
  { unfold isIp. rewrite Hm. cbn [forallb]. unfold parseInt10.
    rewrite Va, Vb, Vc, Vd. lia. }
  split; [exact Hip|]. split.
  - unfold canonical. rewrite Hm. cbn [forallb]. rewrite Ca, Cb, Cc, Cd. reflexivity.
  - rewrite (toDecimal_string t _ _ _ _ Hip Hm), Va, Vb, Vc, Vd. reflexivity.
Qed.

End RoundTrip.

(** C4, as stated, fails: "001.002.003.004" is accepted by [isIp] and
    converts to 16909060, which renders as "1.2.3.4". *)
Lemma toString_toDecimal_counterexample :
  isIp (VStr "001.002.003.004") = true /\
  toDecimal (VStr "001.002.003.004") = Return 16909060 /\
  toString (VNum 16909060) = Return "1.2.3.4" /\
  "1.2.3.4" <> "001.002.003.004".
Proof. repeat split; try reflexivity. discriminate. Qed.

(** C4, amended. For every string [s] accepted by [isIp], converting to
    a number and back succeeds, and the result equals [s] exactly when no
    octet of [s] carries a leading zero; so the round trip is the identity
    on the canonical dotted-decimal strings. *)
Theorem toString_toDecimal_canonical (s : string) :
  isIp (VStr s) = true ->
  exists n t,
    toDecimal (VStr s) = Return n /\
    toString (VNum n) = Return t /\
    (canonical s = true -> t = s) /\
    (t = s -> canonical s = true).
Proof.
  intros Hip.
  destruct (isIp_inv s Hip) as (a & b & c & d & Hm & Ha & Hb & Hc & Hd).
  destruct (rendered_address _ _ _ _ Ha Hb Hc Hd) as (_ & Hcan & _).
  eexists. eexists.
  split; [exact (toDecimal_string s a b c d Hip Hm)|].
  split; [exact (toString_of_octets _ _ _ _ Ha Hb Hc Hd)|].
  split.
  - intros Hs. unfold canonical in Hs. rewrite Hm in Hs. cbn [forallb] in Hs.
    rewrite !andb_true_iff in Hs. destruct Hs as (Ca & Cb & Cc & Cd & _).
    destruct (match_ip_groups s a b c d Hm) as (Ga & Gb & Gc & Gd).
    rewrite !string_of_number_decimal_value by assumption.
    symmetry. exact (match_ip_join s a b c d Hm).
  - intros <-. exact Hcan.
Qed.

Lemma toString_toDecimal_canonical_witness :
  isIp (VStr "10.0.3.255") = true /\
  exists n t,
    toDecimal (VStr "10.0.3.255") = Return n /\
    toString (VNum n) = Return t /\
    (canonical "10.0.3.255" = true -> t = "10.0.3.255") /\
    (t = "10.0.3.255" -> canonical "10.0.3.255" = true).
Proof.
  split; [reflexivity|].
  apply (toString_toDecimal_canonical "10.0.3.255"). reflexivity.
Defined.

(** ** Leading zeros *)

Section LeadingZeros.

Lemma octet_group_digits (s : string) : octet_group s = true -> all_digits s = true.
Proof. unfold octet_group. rewrite !andb_true_iff. tauto. Qed.

Lemma decimal_value_zero (s : string) :
  decimal_value (String "0" s) = decimal_value s.
Proof. reflexivity. Qed.

Lemma strip_zeros_zero (c' : ascii) (rest : string) :
  strip_zeros (String "0" (String c' rest)) = strip_zeros (String c' rest).
Proof. reflexivity. Qed.

Lemma strip_zeros_nonzero (c c' : ascii) (rest : string) :
  Ascii.eqb c "0" = false ->
  strip_zeros (String c (String c' rest)) = String c (String c' rest).
Proof. intros H. cbn [strip_zeros]. rewrite H. reflexivity. Qed.

(** The three shapes of a string, as [strip_zeros] sees them. *)
Lemma strip_zeros_cases (P : string -> Prop) :
  P EmptyString ->
  (forall c, P (String c EmptyString)) ->
  (forall c' rest, P (String c' rest) -> P (String "0" (String c' rest))) ->
  (forall c c' rest, Ascii.eqb c "0" = false -> P (String c (String c' rest))) ->
  forall s, P s.
Proof.
  intros H0 H1 Hz Hn. induction s as [|c s IH]; [exact H0|].
  destruct s as [|c' rest]; [apply H1|].
  destruct (Ascii.eqb_spec c "0") as [->|Hc]; [apply Hz; exact IH|].
  apply Hn. apply Ascii.eqb_neq. exact Hc.
Qed.

Lemma strip_zeros_value (s : string) :
  decimal_value (strip_zeros s) = decimal_value s.
Proof.
  induction s as [| |c' rest IH|c c' rest Hc] using strip_zeros_cases;
    try reflexivity.
  - rewrite strip_zeros_zero, IH, decimal_value_zero. reflexivity.
  - rewrite strip_zeros_nonzero by exact Hc. reflexivity.
Qed.

Lemma strip_zeros_digits (s : string) :
  all_digits s = true -> all_digits (strip_zeros s) = true.
Proof.
  induction s as [| |c' rest IH|c c' rest Hc] using strip_zeros_cases;
    intros H; try exact H.
  - rewrite strip_zeros_zero. apply IH.
    change (all_digits (String "0" (String c' rest)))
      with (is_digit "0" && all_digits (String c' rest)) in H.
    apply andb_true_iff in H. tauto.
  - rewrite strip_zeros_nonzero by exact Hc. exact H.
Qed.

Lemma strip_zeros_length (s : string) :
  (String.length (strip_zeros s) <= String.length s)%nat /\
  ((1 <= String.length s)%nat -> (1 <= String.length (strip_zeros s))%nat).
Proof.
  induction s as [| |c' rest IH|c c' rest Hc] using strip_zeros_cases;
    try (split; [reflexivity | intros H; exact H]).
  - rewrite strip_zeros_zero. destruct IH as [IH1 IH2].
    change (String.length (String "0" (String c' rest)))
      with (S (String.length (String c' rest))).
    split; [lia|]. intros _. apply IH2. cbn [String.length]. lia.
  - rewrite strip_zeros_nonzero by exact Hc. split; [reflexivity | intros H; exact H].
Qed.

Lemma strip_zeros_group (s : string) :
  octet_group s = true -> octet_group (strip_zeros s) = true.
Proof.
  unfold octet_group. rewrite !andb_true_iff, !Nat.leb_le.
  intros [[Hd Hmin] Hmax]. destruct (strip_zeros_length s) as [L1 L2].
  split; [split|]; [apply strip_zeros_digits; exact Hd | apply L2; exact Hmin | lia].
Qed.

Lemma strip_zeros_canonical (s : string) : canonical_octet (strip_zeros s) = true.
Proof.
  induction s as [| |c' rest IH|c c' rest Hc] using strip_zeros_cases;
    try reflexivity.
  - rewrite strip_zeros_zero. exact IH.
  - rewrite strip_zeros_nonzero by exact Hc. cbn [canonical_octet]. rewrite Hc. reflexivity.
Qed.

(** The canonical form of a string of the shape of the pattern: its
    shape, its fields and their values. *)
Lemma canonical_form_match (s a b c d : string) :
  match_ip s = Some (a, b, c, d) ->
  canonical_form s
  = (strip_zeros a ++ "." ++ strip_zeros b ++ "."
     ++ strip_zeros c ++ "." ++ strip_zeros d)%string /\
  match_ip (canonical_form s)
  = Some (strip_zeros a, strip_zeros b, strip_zeros c, strip_zeros d).
Proof.
  intros Hm.
  destruct (match_ip_groups s a b c d Hm) as (Ga & Gb & Gc & Gd).
  assert (E : canonical_form s
              = (strip_zeros a ++ "." ++ strip_zeros b ++ "."
                 ++ strip_zeros c ++ "." ++ strip_zeros d)%string).
  { unfold canonical_form. rewrite (match_ip_split s a b c d Hm). reflexivity. }
  split; [exact E|].
  rewrite E. unfold match_ip.
  rewrite split_dot_join4
    by (apply octet_group_digits; apply strip_zeros_group; assumption).
  rewrite !strip_zeros_group by assumption. reflexivity.
Qed.

(** Acceptance and value do not depend on leading zeros, and the
    rendering of the value is the canonical form. *)
Lemma canonical_form_spec (s a b c d : string) :
  match_ip s = Some (a, b, c, d) ->
  isIp (VStr s) = isIp (VStr (canonical_form s)) /\
  canonical (canonical_form s) = true /\
  (isIp (VStr s) = true ->
   exists n,
     toDecimal (VStr s) = Return n /\
     toDecimal (VStr (canonical_form s)) = Return n /\
     toString (VNum n) = Return (canonical_form s)).
Proof.
  intros Hm.
  destruct (canonical_form_match s a b c d Hm) as [E Hm'].
  destruct (match_ip_groups s a b c d Hm) as (Ga & Gb & Gc & Gd).
  assert (Hsame : isIp (VStr s) = isIp (VStr (canonical_form s))).
  { unfold isIp. rewrite Hm, Hm'. cbn [forallb]. unfold parseInt10.
    rewrite !strip_zeros_value. reflexivity. }
  split; [exact Hsame|]. split.
  { unfold canonical. rewrite Hm'. cbn [forallb].
    rewrite !strip_zeros_canonical. reflexivity. }
  intros Hip.
  destruct (isIp_inv s Hip) as (a' & b' & c' & d' & Hm2 & Ha & Hb & Hc & Hd).
  rewrite Hm in Hm2. injection Hm2 as <- <- <- <-.
  eexists. split; [exact (toDecimal_string s a b c d Hip Hm)|]. split.
  - rewrite (toDecimal_string (canonical_form s) _ _ _ _ ltac:(rewrite <- Hsame; exact Hip) Hm').
    rewrite !strip_zeros_value. reflexivity.
  - rewrite (toString_of_octets _ _ _ _ Ha Hb Hc Hd), E.
    rewrite <- (strip_zeros_value a), <- (strip_zeros_value b),
            <- (strip_zeros_value c), <- (strip_zeros_value d).
    rewrite !string_of_number_decimal_value
      by (apply strip_zeros_group || apply strip_zeros_canonical; assumption).
    reflexivity.
Qed.

End LeadingZeros.



(** * Further properties of the library *)

(** ** The codec on numbers and on arbitrary values *)

Section CodecFacts.

Lemma toDecimal_cases (v : value) :
  (exists n, toDecimal v = Return n) \/ toDecimal v = Throw (NotAnIpAddress v).
Proof.
  destruct v as [z|s]; unfold toDecimal.
  - destruct (isDecimalIp (VNum z)); [left; eexists; reflexivity | right; reflexivity].
  - destruct (isIp (VStr s)); cbn [negb];
      [left; eexists; reflexivity | right; reflexivity].
Qed.

Lemma toDecimal_number (n : Z) :
  0 <= n < 2 ^ 32 -> toDecimal (VNum n) = Return n.
Proof.
  intros H. unfold toDecimal.
  rewrite isDecimalIp_in_range by (rewrite two32_pow; exact H). reflexivity.
Qed.

Lemma octets_of_number (n : Z) :
  0 <= n < 2 ^ 32 ->
  exists va vb vc vd,
    0 <= va <= 255 /\ 0 <= vb <= 255 /\ 0 <= vc <= 255 /\ 0 <= vd <= 255 /\
    n = ((va * 256 + vb) * 256 + vc) * 256 + vd.
Proof.
  intros H. change (2 ^ 32) with 4294967296 in H.
  exists (n / 16777216), (n / 65536 mod 256), (n / 256 mod 256), (n mod 256).
  Z.div_mod_to_equations. lia.
Qed.

(** The string [toString] renders for a number converts back to it. *)
Lemma toString_number_inv (n : Z) (t : string) :
  toString (VNum n) = Return t ->
  0 <= n < 2 ^ 32 /\ isIp (VStr t) = true /\ canonical t = true /\
  toDecimal (VStr t) = Return n.
Proof.
  intros H.
  assert (R : 0 <= n < 2 ^ 32).
  { unfold toString in H. destruct (isDecimalIp (VNum n)) eqn:E; [|discriminate].
    unfold isDecimalIp in E. rewrite !andb_true_iff, !Z.leb_le in E.
    change (2 ^ 32) with 4294967296. lia. }
  split; [exact R|].
  destruct (octets_of_number n R) as (va & vb & vc & vd & Ha & Hb & Hc & Hd & ->).
  rewrite (toString_of_octets va vb vc vd Ha Hb Hc Hd) in H. injection H as <-.
  exact (rendered_address va vb vc vd Ha Hb Hc Hd).
Qed.

Lemma all_digits_fold_nonneg (l : list ascii) :
  forall acc,
    0 <= acc -> forallb is_digit l = true ->
    0 <= fold_left (fun a c => a * 10 + digit_value c) l acc.
Proof.
  induction l as [|c l IH]; intros acc Hacc Hl; cbn [fold_left]; [exact Hacc|].
  cbn [forallb] in Hl. apply andb_true_iff in Hl. destruct Hl as [Hc Hl].
  apply IH; [|exact Hl].
  destruct (is_digit_inv c Hc) as (d & Hd & _ & ->). lia.
Qed.

Lemma all_digits_forallb (s : string) :
  all_digits s = forallb is_digit (list_ascii_of_string s).
Proof.
  induction s as [|c s IH]; cbn [all_digits list_ascii_of_string forallb];
    [reflexivity | rewrite IH; reflexivity].
Qed.

Lemma decimal_value_nonneg (s : string) :
  all_digits s = true -> 0 <= decimal_value s.
Proof.
  intros H. unfold decimal_value. apply all_digits_fold_nonneg; [lia|].
  rewrite <- all_digits_forallb. exact H.
Qed.

End CodecFacts.

(** X1. Whatever [toDecimal] returns is an integer of the address range:
    [isDecimalIp] accepts it and [toDecimal] passes it through unchanged. *)
Theorem toDecimal_result_is_address (v : value) (n : Z) :
  toDecimal v = Return n ->
  0 <= n <= 4294967295 /\
  isDecimalIp (VNum n) = true /\
  toDecimal (VNum n) = Return n.
Proof.
  intros H. pose proof (toDecimal_range v n H) as R.
  change (2 ^ 32) with 4294967296 in R.
  split; [lia|]. split.
  - apply isDecimalIp_in_range. unfold two32. lia.
  - apply toDecimal_number. change (2 ^ 32) with 4294967296. lia.
Qed.

Lemma toDecimal_result_is_address_witness :
  toDecimal (VStr "192.168.001.10") = Return 3232235786 /\
  0 <= 3232235786 <= 4294967295 /\
  isDecimalIp (VNum 3232235786) = true /\
  toDecimal (VNum 3232235786) = Return 3232235786.
Proof.
  split; [reflexivity|].
  apply (toDecimal_result_is_address (VStr "192.168.001.10") 3232235786). reflexivity.
Defined.

(** X2. Number round trip: for every integer of the address range,
    [toString] returns a string that [isIp] accepts, that carries no
    leading zero, and that [toDecimal] converts back to the same integer. *)
Theorem toDecimal_toString_number (n : Z) :
  0 <= n <= 4294967295 ->
  exists t,
    toString (VNum n) = Return t /\
    isIp (VStr t) = true /\ canonical t = true /\
    toDecimal (VStr t) = Return n.
Proof.
  intros H.
  assert (R : 0 <= n < two32) by (unfold two32; lia).
  eexists. split; [exact (toString_in_range n R)|].
  apply (toString_number_inv n). exact (toString_in_range n R).
Qed.

Lemma toDecimal_toString_number_witness :
  exists t,
    toString (VNum 2130706433) = Return t /\
    isIp (VStr t) = true /\ canonical t = true /\
    toDecimal (VStr t) = Return 2130706433.
Proof. apply (toDecimal_toString_number 2130706433). lia. Defined.

(** X4. [isIp] accepts a string exactly when it is four groups of one to
    three decimal digits, joined by single dots, each of value at most
    255. *)
Theorem isIp_characterisation (s : string) :
  isIp (VStr s) = true <->
  exists a b c d,
    s = (a ++ "." ++ b ++ "." ++ c ++ "." ++ d)%string /\
    octet_group a = true /\ octet_group b = true /\
    octet_group c = true /\ octet_group d = true /\
    decimal_value a <= 255 /\ decimal_value b <= 255 /\
    decimal_value c <= 255 /\ decimal_value d <= 255.
Proof.
  split.
  - intros H.
    destruct (isIp_inv s H) as (a & b & c & d & Hm & Ha & Hb & Hc & Hd).
    destruct (match_ip_groups s a b c d Hm) as (Ga & Gb & Gc & Gd).
    exists a, b, c, d. split; [exact (match_ip_join s a b c d Hm)|].
    repeat split; try assumption; lia.
  - intros (a & b & c & d & -> & Ga & Gb & Gc & Gd & Ha & Hb & Hc & Hd).
    pose proof (decimal_value_nonneg a (octet_group_digits a Ga)).
    pose proof (decimal_value_nonneg b (octet_group_digits b Gb)).
    pose proof (decimal_value_nonneg c (octet_group_digits c Gc)).
    pose proof (decimal_value_nonneg d (octet_group_digits d Gd)).
    unfold isIp, match_ip.
    rewrite split_dot_join4 by (apply octet_group_digits; assumption).
    rewrite Ga, Gb, Gc, Gd. cbn [andb forallb]. unfold parseInt10. lia.
Qed.

(** ** Masks and blocks *)

Section BlockFacts.

Lemma low_address (c p : Z) :
  0 <= c < 2 ^ 32 -> 0 <= p <= 32 ->
  ushr0 (and32 c (getPrefixMask p)) = c - c mod 2 ^ (32 - p).
Proof.
  intros Hc Hp.
  pose proof (pow2_pos (32 - p) ltac:(lia)) as Hpos.
  assert (Hpow : 2 ^ (32 - p) <= 2 ^ 32) by (apply Z.pow_le_mono_r; lia).
  rewrite getPrefixMask_closed, ushr0_and32 by lia.
  rewrite (Z.mod_small c), (Z.mod_small (2 ^ 32 - 2 ^ (32 - p)))
    by (rewrite two32_pow; lia).
  apply land_prefix_mask_mod; lia.
Qed.

(** The descriptor depends on the address only through its masked
    value. *)
Lemma getMaskRange_congr (x c p : Z) :
  ushr0 (and32 x (getPrefixMask p)) = ushr0 (and32 c (getPrefixMask p)) ->
  getMaskRange x p = getMaskRange c p.
Proof. intros H. unfold getMaskRange. rewrite H. reflexivity. Qed.

Lemma block_floor_unique (m L x : Z) :
  0 < m -> L mod m = 0 -> L <= x < L + m -> x - x mod m = L.
Proof.
  intros Hm HL Hx.
  apply Z.mod_divide in HL; [|lia]. destruct HL as [q ->].
  replace x with ((x - q * m) + q * m) at 2 by ring.
  rewrite Z.mod_add by lia. rewrite Z.mod_small by lia. lia.
Qed.

Lemma multiple_gap (m a b : Z) :
  0 < m -> a mod m = 0 -> b mod m = 0 -> a < b -> a + m <= b.
Proof.
  intros Hm Ha Hb Hab.
  apply Z.mod_divide in Ha; [|lia]. apply Z.mod_divide in Hb; [|lia].
  destruct Ha as [qa ->]. destruct Hb as [qb ->].
  assert (qa < qb) by nia. nia.
Qed.

Lemma floor_aligned (c k : Z) : 0 <= k -> (c - c mod 2 ^ k) mod 2 ^ k = 0.
Proof.
  intros Hk. pose proof (pow2_pos k Hk).
  rewrite Zminus_mod_idemp_r, Z.sub_diag. apply Z.mod_0_l. lia.
Qed.

(** The string fields of a descriptor are the renderings of its numeric
    fields. *)
Lemma getMaskRange_strings (c p : Z) (r : MaskRange) :
  getMaskRange c p = Return r ->
  toString (VNum (ipLow r)) = Return (ipLowStr r) /\
  toString (VNum (ipHigh r)) = Return (ipHighStr r) /\
  toString (VNum (prefixMask r)) = Return (prefixMaskStr r) /\
  toString (VNum (invertedMask r)) = Return (invertedMaskStr r).
Proof.
  unfold getMaskRange.
  destruct (toString (VNum (ushr0 (and32 c (getPrefixMask p))))) as [s1| |] eqn:E1;
    cbn [bind]; try discriminate.
  destruct (toString (VNum (ushr0 (ushr0 (and32 c (getPrefixMask p)) + getMask (32 - p)))))
    as [s2| |] eqn:E2; cbn [bind]; try discriminate.
  destruct (toString (VNum (getPrefixMask p))) as [s3| |] eqn:E3;
    cbn [bind]; try discriminate.
  destruct (toString (VNum (getMask (32 - p)))) as [s4| |] eqn:E4;
    cbn [bind]; try discriminate.
  intros H. injection H as <-.
  cbn [ipLow ipLowStr ipHigh ipHighStr prefixMask prefixMaskStr invertedMask invertedMaskStr].
  repeat split; assumption.
Qed.

End BlockFacts.

(** X5. For every size [n] in [0, 32], [getPrefixMask n] is
    [2^32 - 2^(32-n)] (the top [n] bits), [getMask n] is [2^n - 1] (the
    bottom [n] bits), and the prefix mask of size [n] and the host mask of
    size [32 - n] add up to 0xFFFFFFFF. *)
Theorem mask_closed_forms (n : Z) :
  0 <= n <= 32 ->
  getPrefixMask n = 2 ^ 32 - 2 ^ (32 - n) /\
  getMask n = 2 ^ n - 1 /\
  getPrefixMask n + getMask (32 - n) = 4294967295.
Proof.
  intros Hn.
  rewrite getPrefixMask_closed, !getMask_closed by lia.
  change (2 ^ 32) with 4294967296. repeat split. lia.
Qed.

Lemma mask_closed_forms_witness :
  getPrefixMask 24 = 2 ^ 32 - 2 ^ (32 - 24) /\
  getMask 24 = 2 ^ 24 - 1 /\
  getPrefixMask 24 + getMask (32 - 24) = 4294967295.
Proof. apply (mask_closed_forms 24). lia. Defined.



(** X7. For an address of the address range and a prefix size in
    [0, 32], the block of [getMaskRange] contains the address, and the
    addresses of the range that [getMaskRange] maps to this same descriptor
    are exactly the addresses of the block. *)
Theorem getMaskRange_block_members (ipNum p : Z) (r : MaskRange) :
  0 <= ipNum <= 4294967295 -> 0 <= p <= 32 ->
  getMaskRange ipNum p = Return r ->
  ipLow r <= ipNum <= ipHigh r /\
  forall x, 0 <= x <= 4294967295 ->
    (getMaskRange x p = Return r <-> ipLow r <= x <= ipHigh r).
Proof.
  intros Hc Hp Hr.
  assert (Rc : 0 <= ipNum < 2 ^ 32) by (change (2 ^ 32) with 4294967296; lia).
  pose proof (pow2_pos (32 - p) ltac:(lia)) as Hpos.
  assert (Hin : forall x y, 0 <= x < 2 ^ 32 -> getMaskRange x p = Return y ->
                            ipLow y = x - x mod 2 ^ (32 - p) /\
                            ipLow y <= x <= ipHigh y).
  { intros x y Rx Hy.
    destruct (getMaskRange_spec x p Rx Hp) as (y' & Hy' & _ & _ & _ & _ & Hlow & Hhigh).
    rewrite Hy in Hy'. injection Hy' as <-.
    pose proof (Z.mod_pos_bound x (2 ^ (32 - p)) Hpos). lia. }
  destruct (Hin ipNum r Rc Hr) as [Hlow Hmem].
  split; [exact Hmem|].
  intros x Hx.
  assert (Rx : 0 <= x < 2 ^ 32) by (change (2 ^ 32) with 4294967296; lia).
  split.
  - intros Hxr. exact (proj2 (Hin x r Rx Hxr)).
  - intros Hxin. rewrite <- Hr. apply getMaskRange_congr.
    rewrite !low_address by assumption.
    destruct (getMaskRange_spec ipNum p Rc Hp) as (r' & Hr' & _ & _ & _ & _ & Hl & Hh).
    rewrite Hr in Hr'. injection Hr' as <-.
    apply (block_floor_unique (2 ^ (32 - p)) (ipNum - ipNum mod 2 ^ (32 - p)) x Hpos).
    + apply floor_aligned. lia.
    + lia.
Qed.

Lemma getMaskRange_block_members_witness :
  exists r,
    getMaskRange 167772205 24 = Return r /\
    ipLow r <= 167772205 <= ipHigh r /\
    forall x, 0 <= x <= 4294967295 ->
      (getMaskRange x 24 = Return r <-> ipLow r <= x <= ipHigh r).
Proof.
  eexists. split; [vm_compute; reflexivity|].
  apply (getMaskRange_block_members 167772205 24); [lia | lia | vm_compute; reflexivity].
Defined.

(** X8. In every descriptor that [getMaskRange] returns, each string
    field is the rendering of the numeric field beside it and converts
    back to it with [toDecimal]. *)
Theorem getMaskRange_strings_round_trip (ipNum p : Z) (r : MaskRange) :
  getMaskRange ipNum p = Return r ->
  (toString (VNum (ipLow r)) = Return (ipLowStr r) /\
   toDecimal (VStr (ipLowStr r)) = Return (ipLow r)) /\
  (toString (VNum (ipHigh r)) = Return (ipHighStr r) /\
   toDecimal (VStr (ipHighStr r)) = Return (ipHigh r)) /\
  (toString (VNum (prefixMask r)) = Return (prefixMaskStr r) /\
   toDecimal (VStr (prefixMaskStr r)) = Return (prefixMask r)) /\
  (toString (VNum (invertedMask r)) = Return (invertedMaskStr r) /\
   toDecimal (VStr (invertedMaskStr r)) = Return (invertedMask r)).
Proof.
  intros Hr.
  destruct (getMaskRange_strings ipNum p r Hr) as (H1 & H2 & H3 & H4).
  repeat split; try assumption.
  - exact (proj2 (proj2 (proj2 (toString_number_inv _ _ H1)))).
  - exact (proj2 (proj2 (proj2 (toString_number_inv _ _ H2)))).
  - exact (proj2 (proj2 (proj2 (toString_number_inv _ _ H3)))).
  - exact (proj2 (proj2 (proj2 (toString_number_inv _ _ H4)))).
Qed.

Lemma getMaskRange_strings_round_trip_witness :
  exists r,
    getMaskRange 167772205 24 = Return r /\
    (toString (VNum (ipLow r)) = Return (ipLowStr r) /\
     toDecimal (VStr (ipLowStr r)) = Return (ipLow r)) /\
    (toString (VNum (ipHigh r)) = Return (ipHighStr r) /\
     toDecimal (VStr (ipHighStr r)) = Return (ipHigh r)) /\
    (toString (VNum (prefixMask r)) = Return (prefixMaskStr r) /\
     toDecimal (VStr (prefixMaskStr r)) = Return (prefixMask r)) /\
    (toString (VNum (invertedMask r)) = Return (invertedMaskStr r) /\
     toDecimal (VStr (invertedMaskStr r)) = Return (invertedMask r)).
Proof.
  eexists. split; [vm_compute; reflexivity|].
  apply (getMaskRange_strings_round_trip 167772205 24). vm_compute. reflexivity.
Defined.

(** X9. Blocks of one address are nested: a longer prefix gives a block
    inside the block of a shorter prefix. *)
Theorem getMaskRange_nested (ipNum p q : Z) (rp rq : MaskRange) :
  0 <= ipNum <= 4294967295 -> 0 <= p -> p <= q -> q <= 32 ->
  getMaskRange ipNum p = Return rp -> getMaskRange ipNum q = Return rq ->
  ipLow rp <= ipLow rq /\ ipHigh rq <= ipHigh rp.
Proof.
  intros Hc Hp Hpq Hq Hrp Hrq.
  assert (Rc : 0 <= ipNum < 2 ^ 32) by (change (2 ^ 32) with 4294967296; lia).
  destruct (getMaskRange_spec ipNum p Rc ltac:(lia)) as (r1 & E1 & _ & _ & _ & _ & L1 & H1).
  destruct (getMaskRange_spec ipNum q Rc ltac:(lia)) as (r2 & E2 & _ & _ & _ & _ & L2 & H2).
  rewrite Hrp in E1. injection E1 as <-. rewrite Hrq in E2. injection E2 as <-.
  set (kp := 32 - p) in *. set (kq := 32 - q) in *.
  pose proof (pow2_pos kp ltac:(lia)) as Pp. pose proof (pow2_pos kq ltac:(lia)) as Pq.
  pose proof (Z.mod_pos_bound ipNum (2 ^ kp) Pp) as Bp.
  pose proof (Z.mod_pos_bound ipNum (2 ^ kq) Pq) as Bq.
  assert (Ap : ipLow rp mod 2 ^ kq = 0).
  { rewrite L1. apply (mod_pow2_weaken _ kq kp); [lia | apply floor_aligned; lia]. }
  assert (Aq : ipLow rq mod 2 ^ kq = 0) by (rewrite L2; apply floor_aligned; lia).
  assert (Atop : (ipLow rp + 2 ^ kp) mod 2 ^ kq = 0).
  { apply (mod_pow2_weaken _ kq kp); [lia|].
    apply add_block_aligned; [lia|]. rewrite L1. apply floor_aligned. lia. }
  assert (Hlow : ipLow rp <= ipLow rq).
  { destruct (Z.le_gt_cases (ipLow rp) (ipLow rq)) as [|Hgt]; [assumption|].
    pose proof (multiple_gap (2 ^ kq) (ipLow rq) (ipLow rp) Pq Aq Ap Hgt). lia. }
  split; [exact Hlow|].
  assert (ipLow rq < ipLow rp + 2 ^ kp) by lia.
  pose proof (multiple_gap (2 ^ kq) (ipLow rq) (ipLow rp + 2 ^ kp) Pq Aq Atop ltac:(lia)).
  lia.
Qed.

Lemma getMaskRange_nested_witness :
  exists rp rq,
    getMaskRange 167772205 16 = Return rp /\ getMaskRange 167772205 24 = Return rq /\
    ipLow rp <= ipLow rq /\ ipHigh rq <= ipHigh rp.
Proof.
  do 2 eexists. split; [vm_compute; reflexivity|]. split; [vm_compute; reflexivity|].
  apply (getMaskRange_nested 167772205 16 24);
    [lia | lia | lia | lia | vm_compute; reflexivity | vm_compute; reflexivity].
Defined.

(** ** Outcomes of the public functions *)

Section Outcomes.

Lemma calculate_loop_outcome (fuel : nat) :
  forall c e acc,
    0 <= c -> e < 2 ^ 32 ->
    calculate_loop fuel c e acc = OutOfFuel \/
    exists bs, calculate_loop fuel c e acc = Return (Some bs).
Proof.
  induction fuel as [|fuel IH]; intros c e acc H0 He.
  - cbn [calculate_loop]. destruct (c <=? e); [left; reflexivity | right; eexists; reflexivity].
  - destruct (Z.le_gt_cases c e) as [Hce|Hce].
    + destruct (getOptimalRange_spec c e H0 Hce He) as (r & Hr & Hp & _ & _ & Hhigh & _).
      rewrite (calculate_loop_step fuel c e acc r Hce Hr).
      apply IH; [|exact He].
      pose proof (pow2_pos (32 - prefixSize r) ltac:(lia)). lia.
    + right. exists acc. apply calculate_loop_done. lia.
Qed.

(** The prefix size inferred from the prefix mask of size [p] is [p]. *)
Lemma inferred_prefix_of_mask (p : Z) :
  0 <= p <= 32 -> calculateCIDRPrefix_loop 32 (getPrefixMask p) 0 0 = p.
Proof.
  intros Hp.
  assert (Hpos : 0 < 2 ^ (32 - p)) by (apply pow2_pos; lia).
  assert (Hpow : 2 ^ (32 - p) <= 2 ^ 32) by (apply Z.pow_le_mono_r; lia).
  assert (Rm : 0 <= getPrefixMask p < 2 ^ 32) by (rewrite getPrefixMask_closed by lia; lia).
  destruct (inferred_prefix (getPrefixMask p) Rm) as (Hq & Hc & Hmax & _).
  set (q := calculateCIDRPrefix_loop 32 (getPrefixMask p) 0 0) in *.
  assert (p <= q).
  { apply Hmax; [exact Hp|]. unfold contains_prefix. apply Z.land_diag. }
  apply (contains_prefix_ge _ q Rm Hq) in Hc.
  rewrite getPrefixMask_closed in Hc by lia.
  assert (32 - p <= 32 - q).
  { destruct (Z.le_gt_cases (32 - p) (32 - q)) as [|Hgt]; [assumption|].
    assert (2 ^ (32 - q + 1) <= 2 ^ (32 - p)) by (apply Z.pow_le_mono_r; lia).
    rewrite pow2_succ in * by lia.
    pose proof (pow2_pos (32 - q) ltac:(lia)). lia. }
  lia.
Qed.

End Outcomes.

(** X10. With a prefix size in [0, 32], [calculateSubnetMask] never
    throws; it returns null exactly when [toDecimal] rejects the address,
    and otherwise the [getMaskRange] block of that size, which contains
    the address. *)
Theorem calculateSubnetMask_outcome (ip : value) (p : Z) :
  0 <= p <= 32 ->
  (forall err, calculateSubnetMask ip p <> Throw err) /\
  (calculateSubnetMask ip p = Return None <->
   toDecimal ip = Throw (NotAnIpAddress ip)) /\
  (forall n, toDecimal ip = Return n ->
     exists r,
       calculateSubnetMask ip p = Return (Some r) /\
       getMaskRange n p = Return r /\
       prefixSize r = p /\ ipLow r <= n <= ipHigh r).
Proof.
  intros Hp.
  assert (Hvalid : forall n, toDecimal ip = Return n ->
            exists r, calculateSubnetMask ip p = Return (Some r) /\
                      getMaskRange n p = Return r /\
                      prefixSize r = p /\ ipLow r <= n <= ipHigh r).
  { intros n Hn. pose proof (toDecimal_range ip n Hn) as Rn.
    destruct (getMaskRange_spec n p Rn Hp) as (r & Hr & Hps & _ & _ & _ & Hlow & Hhigh).
    pose proof (pow2_pos (32 - p) ltac:(lia)) as Hpos.
    pose proof (Z.mod_pos_bound n (2 ^ (32 - p)) Hpos).
    exists r. unfold calculateSubnetMask. rewrite Hn. cbn [try_or_null].
    rewrite Hr. cbn [bind]. repeat split; try assumption; lia. }
  destruct (toDecimal_cases ip) as [[n Hn]|Hthrow].
  - destruct (Hvalid n Hn) as (r & Hr & _).
    split; [intros err; rewrite Hr; discriminate|].
    split; [|exact Hvalid].
    rewrite Hr, Hn. split; discriminate.
  - assert (E : calculateSubnetMask ip p = Return None).
    { unfold calculateSubnetMask. rewrite Hthrow. reflexivity. }
    split; [intros err; rewrite E; discriminate|].
    split; [|exact Hvalid].
    split; [intros _; exact Hthrow | intros _; exact E].
Qed.

Lemma calculateSubnetMask_outcome_witness :
  (forall err, calculateSubnetMask (VStr "10.0.0.45") 24 <> Throw err) /\
  (calculateSubnetMask (VStr "10.0.0.45") 24 = Return None <->
   toDecimal (VStr "10.0.0.45") = Throw (NotAnIpAddress (VStr "10.0.0.45"))) /\
  (forall n, toDecimal (VStr "10.0.0.45") = Return n ->
     exists r,
       calculateSubnetMask (VStr "10.0.0.45") 24 = Return (Some r) /\
       getMaskRange n 24 = Return r /\
       prefixSize r = 24 /\ ipLow r <= n <= ipHigh r).
Proof. apply (calculateSubnetMask_outcome (VStr "10.0.0.45") 24). lia. Defined.

(** X11. Prefix inference inverts mask construction: for every size [p]
    in [0, 32] and every spelling of the prefix mask of size [p], number or
    string, [calculateCIDRPrefix] with that mask returns what
    [calculateSubnetMask] returns for [p]. *)
Theorem calculateCIDRPrefix_of_prefix_mask (ip subnetMask : value) (p : Z) :
  0 <= p <= 32 ->
  valid_address subnetMask (getPrefixMask p) ->
  calculateCIDRPrefix ip subnetMask = calculateSubnetMask ip p.
Proof.
  unfold valid_address. intros Hp Hmask.
  unfold calculateCIDRPrefix, calculateSubnetMask.
  destruct (toDecimal_cases ip) as [[n Hn]|Hthrow].
  - rewrite Hn, Hmask. cbn [bind try_or_null].
    rewrite (inferred_prefix_of_mask p Hp). reflexivity.
  - rewrite Hthrow. reflexivity.
Qed.

Lemma calculateCIDRPrefix_of_prefix_mask_witness :
  valid_address (VStr "255.255.240.0") (getPrefixMask 20) /\
  calculateCIDRPrefix (VStr "10.0.0.45") (VStr "255.255.240.0")
  = calculateSubnetMask (VStr "10.0.0.45") 20.
Proof.
  split; [reflexivity|].
  apply (calculateCIDRPrefix_of_prefix_mask (VStr "10.0.0.45") (VStr "255.255.240.0") 20);
    [lia | reflexivity].
Defined.

(** X12. The prefix size that [calculateCIDRPrefix] infers from a mask of
    value [m] is decided by thresholds: [m] is at least the prefix mask of
    that size and, unless the size is 32, below the prefix mask of the
    next size. *)
Theorem calculateCIDRPrefix_thresholds
    (ip subnetMask : value) (ipNum m : Z) (r : MaskRange) :
  valid_address ip ipNum -> valid_address subnetMask m ->
  calculateCIDRPrefix ip subnetMask = Return (Some r) ->
  0 <= prefixSize r <= 32 /\
  2 ^ 32 - 2 ^ (32 - prefixSize r) <= m /\
  (prefixSize r < 32 -> m < 2 ^ 32 - 2 ^ (31 - prefixSize r)).
Proof.
  unfold valid_address. intros Hip Hmask Hr.
  pose proof (toDecimal_range _ _ Hip) as Rip.
  pose proof (toDecimal_range _ _ Hmask) as Rm.
  destruct (inferred_prefix m Rm) as (Hq & Hc & Hmax & _).
  set (q := calculateCIDRPrefix_loop 32 m 0 0) in *.
  destruct (getMaskRange_spec ipNum q Rip Hq) as (r' & Hr' & Hps & _).
  unfold calculateCIDRPrefix in Hr. rewrite Hip, Hmask in Hr.
  cbn [bind try_or_null] in Hr. fold q in Hr. rewrite Hr' in Hr.
  cbn [bind] in Hr. injection Hr as <-. rewrite Hps.
  split; [exact Hq|]. split.
  - apply (contains_prefix_ge m q Rm Hq). exact Hc.
  - intros Hlt.
    destruct (Z.lt_ge_cases m (2 ^ 32 - 2 ^ (31 - q))) as [|Hge]; [assumption|].
    exfalso.
    assert (contains_prefix m (q + 1)).
    { apply contains_prefix_ge; [exact Rm | lia|].
      replace (32 - (q + 1)) with (31 - q) by ring. exact Hge. }
    specialize (Hmax (q + 1) ltac:(lia) H). lia.
Qed.

Lemma calculateCIDRPrefix_thresholds_witness :
  exists r,
    calculateCIDRPrefix (VStr "10.0.0.45") (VStr "255.255.0.255") = Return (Some r) /\
    0 <= prefixSize r <= 32 /\
    2 ^ 32 - 2 ^ (32 - prefixSize r) <= 4294902015 /\
    (prefixSize r < 32 -> 4294902015 < 2 ^ 32 - 2 ^ (31 - prefixSize r)).
Proof.
  eexists. split; [vm_compute; reflexivity|].
  apply (calculateCIDRPrefix_thresholds (VStr "10.0.0.45") (VStr "255.255.0.255")
           167772205 4294902015); [reflexivity | reflexivity | vm_compute; reflexivity].
Defined.

(** X13. [calculateCIDRPrefix] never throws, and it returns null exactly
    when [toDecimal] rejects the address or the mask. *)
Theorem calculateCIDRPrefix_outcome (ip subnetMask : value) :
  (forall err, calculateCIDRPrefix ip subnetMask <> Throw err) /\
  (calculateCIDRPrefix ip subnetMask = Return None <->
   toDecimal ip = Throw (NotAnIpAddress ip) \/
   toDecimal subnetMask = Throw (NotAnIpAddress subnetMask)).
Proof.
  destruct (toDecimal_cases ip) as [[n Hn]|Hthrow].
  - destruct (toDecimal_cases subnetMask) as [[m Hm]|Hthrow].
    + pose proof (toDecimal_range _ _ Hn) as Rn.
      pose proof (toDecimal_range _ _ Hm) as Rm.
      destruct (inferred_prefix m Rm) as (Hq & _).
      destruct (getMaskRange_spec n _ Rn Hq) as (r & Hr & _).
      assert (E : calculateCIDRPrefix ip subnetMask = Return (Some r)).
      { unfold calculateCIDRPrefix. rewrite Hn, Hm. cbn [bind try_or_null].
        rewrite Hr. reflexivity. }
      rewrite E, Hn, Hm. split; [discriminate|].
      split; [discriminate | intros [H|H]; discriminate].
    + assert (E : calculateCIDRPrefix ip subnetMask = Return None).
      { unfold calculateCIDRPrefix. rewrite Hn, Hthrow. reflexivity. }
      rewrite E. split; [discriminate|].
      split; [intros _; right; exact Hthrow | reflexivity].
  - assert (E : calculateCIDRPrefix ip subnetMask = Return None).
    { unfold calculateCIDRPrefix. rewrite Hthrow. reflexivity. }
    rewrite E. split; [discriminate|].
    split; [intros _; left; exact Hthrow | reflexivity].
Qed.

(** X14. [calculate] never throws, and it returns null exactly when
    [toDecimal] rejects one of the two addresses or the end address is
    below the start address. *)
Theorem calculate_outcome (fuel : nat) (ipStart ipEnd : value) :
  (forall err, calculate fuel ipStart ipEnd <> Throw err) /\
  (calculate fuel ipStart ipEnd = Return None <->
   toDecimal ipStart = Throw (NotAnIpAddress ipStart) \/
   toDecimal ipEnd = Throw (NotAnIpAddress ipEnd) \/
   exists s e, toDecimal ipStart = Return s /\ toDecimal ipEnd = Return e /\ e < s).
Proof.
  destruct (toDecimal_cases ipStart) as [[s Hs]|Hthrow].
  - destruct (toDecimal_cases ipEnd) as [[e He]|Hthrow].
    + pose proof (toDecimal_range _ _ Hs) as Rs.
      pose proof (toDecimal_range _ _ He) as Re.
      destruct (Z.le_gt_cases s e) as [Hse|Hse].
      * rewrite (calculate_valid fuel ipStart ipEnd s e Hs He Hse), Hs, He.
        destruct (calculate_loop_outcome fuel s e [] ltac:(lia) ltac:(lia))
          as [E|[bs E]]; rewrite E.
        -- split; [discriminate|]. split; [discriminate|].
           intros [H|[H|(s' & e' & H1 & H2 & H3)]]; try discriminate.
           injection H1 as <-. injection H2 as <-. lia.
        -- split; [discriminate|]. split; [discriminate|].
           intros [H|[H|(s' & e' & H1 & H2 & H3)]]; try discriminate.
           injection H1 as <-. injection H2 as <-. lia.
      * assert (E : calculate fuel ipStart ipEnd = Return None).
        { unfold calculate. rewrite Hs, He. cbn [bind try_or_null].
          destruct (Z.ltb_spec e s); [reflexivity | lia]. }
        rewrite E. split; [discriminate|].
        split; [|reflexivity]. intros _. right. right. exists s, e. auto.
    + assert (E : calculate fuel ipStart ipEnd = Return None).
      { unfold calculate. rewrite Hs, Hthrow. reflexivity. }
      rewrite E. split; [discriminate|].
      split; [intros _; right; left; exact Hthrow | reflexivity].
  - assert (E : calculate fuel ipStart ipEnd = Return None).
    { unfold calculate. rewrite Hthrow. reflexivity. }
    rewrite E. split; [discriminate|].
    split; [intros _; left; exact Hthrow | reflexivity].
Qed.

(** ** The blocks of a decomposition *)

Section Greedy.

(** Every block the loop appends is the result of the search at its own
    low address. *)
Lemma calculate_loop_optimal (fuel : nat) :
  forall c e acc bs,
    0 <= c -> e < 2 ^ 32 ->
    calculate_loop fuel c e acc = Return (Some bs) ->
    Forall (fun b => getOptimalRange (ipLow b) e = Return (Some b)) acc ->
    Forall (fun b => getOptimalRange (ipLow b) e = Return (Some b)) bs.
Proof.
  induction fuel as [|fuel IH]; intros c e acc bs H0 He Hrun Hacc.
  - cbn [calculate_loop] in Hrun. destruct (c <=? e); [discriminate|].
    injection Hrun as <-. exact Hacc.
  - destruct (Z.le_gt_cases c e) as [Hce|Hce].
    + destruct (getOptimalRange_spec c e H0 Hce He) as (r & Hr & Hp & _ & Hlow & Hhigh & _).
      rewrite (calculate_loop_step fuel c e acc r Hce Hr) in Hrun.
      assert (Hnext : 0 <= ipHigh r + 1)
        by (pose proof (pow2_pos (32 - prefixSize r) ltac:(lia)); lia).
      apply (IH (ipHigh r + 1) e (acc ++ [r]) bs Hnext He Hrun).
      apply Forall_app. split; [exact Hacc|].
      constructor; [|constructor]. rewrite Hlow. exact Hr.
    + rewrite calculate_loop_done in Hrun by lia. injection Hrun as <-. exact Hacc.
Qed.

(** A successful run of the loop from an empty collection tiles the
    range, whatever budget it was given. *)
Lemma calculate_loop_chain (fuel : nat) (s e : Z) (bs : list MaskRange) :
  0 <= s -> s <= e -> e < 2 ^ 32 ->
  calculate_loop fuel s e [] = Return (Some bs) ->
  chain s e bs /\ (List.length bs <= 62)%nat.
Proof.
  intros H0 Hse He Hrun.
  destruct (calculate_loop_total (Nat.max fuel 62) s e H0 Hse He ltac:(lia))
    as (bs' & Hrun' & Hchain & Hlen).
  rewrite (calculate_loop_fuel_mono fuel (Nat.max fuel 62) s e [] _ Hrun ltac:(lia)) in Hrun'.
  injection Hrun' as ->. split; assumption.
Qed.

(** What the search result says about its block, read as a CIDR block
    that cannot be doubled. *)
Lemma optimal_block_maximal (c e : Z) (g : MaskRange) :
  0 <= c -> c <= e -> e < 2 ^ 32 ->
  getOptimalRange c e = Return (Some g) ->
  ipLow g = c /\ cidr_block g /\
  getMaskRange c (prefixSize g) = Return g /\
  ipHigh g <= e /\
  forall i, 32 - prefixSize g < i <= 32 ->
            ~ (c mod 2 ^ i = 0 /\ c + 2 ^ i - 1 <= e).
Proof.
  intros H0 Hce He Hg.
  destruct (getOptimalRange_spec c e H0 Hce He)
    as (r & Hr & Hp & Hmr & Hlow & Hhigh & [Hal Hbd] & Hmin).
  rewrite Hg in Hr. injection Hr as <-.
  split; [exact Hlow|]. split.
  { unfold cidr_block. rewrite Hlow. repeat split; try lia; assumption. }
  split; [exact Hmr|]. split; [lia|].
  intros i Hi [Hali Hbdi].
  destruct Hmin as [Hz|Hnf]; [lia|]. apply Hnf.
  apply (fits_mono c e (32 - i) (prefixSize g - 1)); try lia.
  unfold fits. replace (32 - (32 - i)) with i by ring. split; assumption.
Qed.

Section Split.

Variables c e k : Z.
Hypothesis Hk : 0 <= k <= 32.
Hypothesis Haligned : c mod 2 ^ k = 0.
Hypothesis Hfit : c + 2 ^ k - 1 <= e.
Hypothesis Hmaximal :
  forall i, k < i <= 32 -> ~ (c mod 2 ^ i = 0 /\ c + 2 ^ i - 1 <= e).

(** Any tiling by CIDR blocks that passes through the start of a maximal
    block has a block boundary at its end: no block of the tiling
    straddles it. *)
Lemma tiling_split (other : list MaskRange) :
  forall x,
    c <= x < c + 2 ^ k ->
    Forall cidr_block other -> chain x e other ->
    exists o1 o2,
      other = o1 ++ o2 /\ o1 <> [] /\
      chain (c + 2 ^ k) e o2 /\ Forall cidr_block o2.
Proof.
  pose proof (pow2_pos k ltac:(lia)) as Pk.
  induction other as [|b rest IH]; intros x Hx Hcidr Hchain.
  - exfalso. cbn [chain] in Hchain. lia.
  - apply Forall_cons_iff in Hcidr. destruct Hcidr as [(Hp & Hal & Hhigh) Hrest].
    cbn [chain] in Hchain. destruct Hchain as (Hlow & Hrange & Hnext).
    set (i := 32 - prefixSize b) in *.
    pose proof (pow2_pos i ltac:(lia)) as Pi.
    assert (Hstep : ipHigh b + 1 <= c + 2 ^ k).
    { rewrite Hhigh, Hlow. replace (x + 2 ^ i - 1 + 1) with (x + 2 ^ i) by ring.
      rewrite Hlow in Hal.
      destruct (Z.le_gt_cases i k) as [Hik|Hik].
      - apply multiple_gap; try assumption; [|lia].
        apply (mod_pow2_weaken _ i k); [lia|]. apply add_block_aligned; [lia | exact Haligned].
      - exfalso.
        assert (Hxk : x mod 2 ^ k = 0) by (apply (mod_pow2_weaken x k i); [lia | exact Hal]).
        assert (Hxc : x = c).
        { destruct (Z.eq_dec x c) as [|Hne]; [assumption|].
          pose proof (multiple_gap (2 ^ k) c x Pk Haligned Hxk ltac:(lia)). lia. }
        apply (Hmaximal i ltac:(lia)). rewrite <- Hxc. split; [exact Hal | lia]. }
    destruct (Z.eq_dec (ipHigh b + 1) (c + 2 ^ k)) as [Heq|Hne].
    + exists [b], rest. rewrite <- Heq.
      split; [reflexivity|]. split; [discriminate|]. split; assumption.
    + destruct (IH (ipHigh b + 1) ltac:(lia) Hrest Hnext) as (o1 & o2 & -> & _ & Hc2 & Hf2).
      exists (b :: o1), o2.
      split; [reflexivity|]. split; [discriminate|]. split; assumption.
Qed.

End Split.

(** The greedy tiling is a shortest one. *)
Lemma greedy_minimal (e : Z) (bs : list MaskRange) :
  e < 2 ^ 32 ->
  forall c other,
    0 <= c ->
    chain c e bs ->
    Forall (fun b => getOptimalRange (ipLow b) e = Return (Some b)) bs ->
    Forall cidr_block other -> chain c e other ->
    (List.length bs <= List.length other)%nat.
Proof.
  intros He. induction bs as [|g bs IH]; intros c other H0 Hchain Hopt Hcidr Hother.
  - cbn [List.length]. lia.
  - cbn [chain] in Hchain. destruct Hchain as (Hlow & Hrange & Hnext).
    apply Forall_cons_iff in Hopt. destruct Hopt as [Hg Hopt'].
    subst c.
    destruct (optimal_block_maximal (ipLow g) e g H0 ltac:(lia) He Hg)
      as (_ & (Hp & Hal & Hhigh) & _ & _ & Hmax).
    set (k := 32 - prefixSize g) in *.
    pose proof (pow2_pos k ltac:(lia)) as Pk.
    destruct (tiling_split (ipLow g) e k ltac:(lia) Hal ltac:(lia) Hmax other (ipLow g)
                ltac:(lia) Hcidr Hother) as (o1 & o2 & -> & Hne & Hc2 & Hf2).
    replace (ipHigh g + 1) with (ipLow g + 2 ^ k) in Hnext by lia.
    specialize (IH (ipLow g + 2 ^ k) o2 ltac:(lia) Hnext Hopt' Hf2 Hc2).
    rewrite length_app. destruct o1 as [|o o1]; [contradiction|].
    cbn [List.length]. lia.
Qed.

End Greedy.

(** X15. A range that is itself a CIDR block decomposes into that one
    block: when the start address is aligned to [2^k] and the end address
    is the last of the [2^k] addresses from there, [calculate] returns the
    single block of prefix size [32 - k].  With [k = 0] this is the
    single-address range, which gives one block of prefix size 32. *)
Theorem calculate_aligned_range
    (fuel : nat) (ipStart ipEnd : value) (s k : Z) :
  valid_address ipStart s -> valid_address ipEnd (s + 2 ^ k - 1) ->
  0 <= k <= 32 -> s mod 2 ^ k = 0 -> (1 <= fuel)%nat ->
  exists r,
    calculate fuel ipStart ipEnd = Return (Some [r]) /\
    getMaskRange s (32 - k) = Return r /\
    prefixSize r = 32 - k /\ ipLow r = s /\ ipHigh r = s + 2 ^ k - 1.
Proof.
  intros Hs He Hk Hal Hfuel.
  pose proof (toDecimal_range _ _ Hs) as Rs.
  pose proof (toDecimal_range _ _ He) as Re.
  pose proof (pow2_pos k ltac:(lia)) as Pk.
  set (e := s + 2 ^ k - 1) in *.
  destruct (getOptimalRange_spec s e ltac:(lia) ltac:(lia) ltac:(lia))
    as (r & Hr & Hp & Hmr & Hlow & Hhigh & [Hfal Hfbd] & Hmin).
  assert (Hle : 32 - prefixSize r <= k).
  { destruct (Z.le_gt_cases (32 - prefixSize r) k) as [|Hgt]; [assumption|].
    assert (2 ^ (k + 1) <= 2 ^ (32 - prefixSize r)) by (apply Z.pow_le_mono_r; lia).
    rewrite pow2_succ in * by lia. lia. }
  assert (Hps : prefixSize r = 32 - k).
  { destruct (Z.eq_dec (prefixSize r) (32 - k)) as [|Hne]; [assumption|]. exfalso.
    destruct Hmin as [Hz|Hnf]; [lia|]. apply Hnf.
    apply (fits_mono s e (32 - k) (prefixSize r - 1)); try lia.
    unfold fits. replace (32 - (32 - k)) with k by ring. split; [exact Hal | lia]. }
  exists r. rewrite (calculate_valid fuel ipStart ipEnd s e Hs He ltac:(lia)).
  destruct fuel as [|fuel]; [lia|].
  rewrite (calculate_loop_step fuel s e [] r ltac:(lia) Hr).
  rewrite calculate_loop_done by (rewrite Hhigh, Hps; replace (32 - (32 - k)) with k by ring; lia).
  rewrite <- Hps. split; [reflexivity|]. split; [exact Hmr|].
  split; [reflexivity|]. split; [exact Hlow|].
  rewrite Hhigh, Hps. replace (32 - (32 - k)) with k by ring. reflexivity.
Qed.

Lemma calculate_aligned_range_witness :
  valid_address (VStr "128.0.0.0") 2147483648 /\
  valid_address (VStr "128.0.255.255") (2147483648 + 2 ^ 16 - 1) /\
  exists r,
    calculate 1 (VStr "128.0.0.0") (VStr "128.0.255.255") = Return (Some [r]) /\
    getMaskRange 2147483648 (32 - 16) = Return r /\
    prefixSize r = 32 - 16 /\ ipLow r = 2147483648 /\
    ipHigh r = 2147483648 + 2 ^ 16 - 1.
Proof.
  split; [reflexivity|]. split; [reflexivity|].
  apply (calculate_aligned_range 1 (VStr "128.0.0.0") (VStr "128.0.255.255") 2147483648 16);
    [reflexivity | reflexivity | lia | reflexivity | lia].
Defined.

(** X16. Every block that [calculate] returns lies in the range, is the
    result of [getOptimalRange] at its own low address, is the
    [getMaskRange] descriptor of its low address and prefix size, and is
    CIDR-aligned: the prefix size is in [0, 32], the low address is a
    multiple of the block size and the high address is the last address of
    the block. *)
Theorem calculate_blocks_are_optimal
    (fuel : nat) (ipStart ipEnd : value) (s e : Z) (blocks : list MaskRange) :
  valid_address ipStart s -> valid_address ipEnd e ->
  calculate fuel ipStart ipEnd = Return (Some blocks) ->
  forall b, In b blocks ->
    s <= ipLow b /\ ipHigh b <= e /\
    getOptimalRange (ipLow b) e = Return (Some b) /\
    getMaskRange (ipLow b) (prefixSize b) = Return b /\
    cidr_block b.
Proof.
  intros Hs He Hrun b Hin.
  pose proof (toDecimal_range _ _ Hs) as Rs.
  pose proof (toDecimal_range _ _ He) as Re.
  assert (Hse : s <= e).
  { destruct (Z.le_gt_cases s e) as [|Hgt]; [assumption|]. exfalso.
    unfold valid_address in *. unfold calculate in Hrun. rewrite Hs, He in Hrun.
    cbn [bind try_or_null] in Hrun.
    destruct (Z.ltb_spec e s); [discriminate | lia]. }
  rewrite (calculate_valid fuel ipStart ipEnd s e Hs He Hse) in Hrun.
  destruct (calculate_loop_chain fuel s e blocks ltac:(lia) Hse ltac:(lia) Hrun)
    as [Hchain _].
  pose proof (calculate_loop_optimal fuel s e [] blocks ltac:(lia) ltac:(lia) Hrun
                (Forall_nil _)) as Hopt.
  rewrite Forall_forall in Hopt. specialize (Hopt b Hin).
  destruct (chain_bounds blocks s e b Hchain Hin) as [Hlo Hhi].
  destruct (optimal_block_maximal (ipLow b) e b ltac:(lia) ltac:(lia) ltac:(lia) Hopt)
    as (_ & Hcidr & Hmr & _ & _).
  split; [exact Hlo|]. split; [lia|]. split; [exact Hopt|]. split; assumption.
Qed.

Lemma calculate_blocks_are_optimal_witness :
  exists blocks,
    calculate 62 (VStr "10.0.1.255") (VStr "10.0.3.255") = Return (Some blocks) /\
    forall b, In b blocks ->
      167772671 <= ipLow b /\ ipHigh b <= 167773183 /\
      getOptimalRange (ipLow b) 167773183 = Return (Some b) /\
      getMaskRange (ipLow b) (prefixSize b) = Return b /\
      cidr_block b.
Proof.
  eexists. split; [vm_compute; reflexivity|].
  apply (calculate_blocks_are_optimal 62 (VStr "10.0.1.255") (VStr "10.0.3.255"));
    [reflexivity | reflexivity | vm_compute; reflexivity].
Defined.

(** X17. The decomposition is a shortest one: no tiling of the range
    [start .. end] by CIDR blocks, listed from left to right, has fewer
    blocks than the list [calculate] returns. *)
Theorem calculate_minimal
    (fuel : nat) (ipStart ipEnd : value) (s e : Z) (blocks : list MaskRange) :
  valid_address ipStart s -> valid_address ipEnd e -> s <= e ->
  calculate fuel ipStart ipEnd = Return (Some blocks) ->
  forall other,
    Forall cidr_block other -> chain s e other ->
    (List.length blocks <= List.length other)%nat.
Proof.
  intros Hs He Hse Hrun other Hcidr Hother.
  pose proof (toDecimal_range _ _ Hs) as Rs.
  pose proof (toDecimal_range _ _ He) as Re.
  rewrite (calculate_valid fuel ipStart ipEnd s e Hs He Hse) in Hrun.
  destruct (calculate_loop_chain fuel s e blocks ltac:(lia) Hse ltac:(lia) Hrun)
    as [Hchain _].
  pose proof (calculate_loop_optimal fuel s e [] blocks ltac:(lia) ltac:(lia) Hrun
                (Forall_nil _)) as Hopt.
  exact (greedy_minimal e blocks ltac:(lia) s other ltac:(lia) Hchain Hopt Hcidr Hother).
Qed.

Lemma calculate_minimal_witness :
  exists blocks,
    calculate 62 (VStr "10.0.1.255") (VStr "10.0.3.255") = Return (Some blocks) /\
    forall other,
      Forall cidr_block other -> chain 167772671 167773183 other ->
      (List.length blocks <= List.length other)%nat.
Proof.
  eexists. split; [vm_compute; reflexivity|].
  apply (calculate_minimal 62 (VStr "10.0.1.255") (VStr "10.0.3.255"));
    [reflexivity | reflexivity | lia | vm_compute; reflexivity].
Defined.

(** X18. On addresses of the address range, [getOptimalRange] returns
    null exactly when the end address is below the start address. *)
Theorem getOptimalRange_null_iff_inverted (ipNum ipEndNum : Z) :
  0 <= ipNum <= 4294967295 -> ipEndNum <= 4294967295 ->
  (getOptimalRange ipNum ipEndNum = Return None <-> ipEndNum < ipNum).
Proof.
  intros Hc He.
  assert (Rc : 0 <= ipNum < 2 ^ 32) by (change (2 ^ 32) with 4294967296; lia).
  split.
  - intros Hnone. destruct (Z.lt_ge_cases ipEndNum ipNum) as [|Hge]; [assumption|].
    destruct (getOptimalRange_spec ipNum ipEndNum ltac:(lia) ltac:(lia)
                ltac:(change (2 ^ 32) with 4294967296; lia)) as (r & Hr & _).
    rewrite Hr in Hnone. discriminate.
  - intros Hlt.
    destruct (getMaskRange_spec ipNum 32 Rc ltac:(lia))
      as (m & Hm & _ & _ & _ & _ & Hlow & Hhigh).
    replace (32 - 32) with 0 in * by ring. rewrite Z.pow_0_r, Z.mod_1_r in *.
    unfold getOptimalRange, getOptimalRange_trace.
    change 33%nat with (S 32). cbn [getOptimalRange_loop].
    change (Z.of_nat 32) with 32. rewrite Hm. cbn [bind].
    destruct (Z.leb_spec (ipHigh m) ipEndNum); [lia|].
    rewrite andb_false_r. reflexivity.
Qed.

Lemma getOptimalRange_null_iff_inverted_witness :
  getOptimalRange 168099840 167773977 = Return None <-> 167773977 < 168099840.
Proof. apply (getOptimalRange_null_iff_inverted 168099840 167773977); lia. Defined.

(** X19. The public functions depend on an address only through its
    numeric value: a valid address given as a string and the same address
    given as a number yield the same results. *)
Theorem public_functions_by_value
    (fuel : nat) (ip other : value) (n m p : Z) :
  valid_address ip n -> valid_address other m ->
  calculate fuel ip other = calculate fuel (VNum n) (VNum m) /\
  calculateSubnetMask ip p = calculateSubnetMask (VNum n) p /\
  calculateCIDRPrefix ip other = calculateCIDRPrefix (VNum n) (VNum m).
Proof.
  intros Hn Hm.
  pose proof (toDecimal_number n (toDecimal_range _ _ Hn)) as Hn'.
  pose proof (toDecimal_number m (toDecimal_range _ _ Hm)) as Hm'.
  unfold valid_address in *.
  unfold calculate, calculateSubnetMask, calculateCIDRPrefix.
  rewrite Hn, Hm, Hn', Hm'. repeat split.
Qed.

Lemma public_functions_by_value_witness :
  valid_address (VStr "10.0.1.255") 167772671 /\
  valid_address (VStr "10.0.3.255") 167773183 /\
  calculate 62 (VStr "10.0.1.255") (VStr "10.0.3.255")
  = calculate 62 (VNum 167772671) (VNum 167773183) /\
  calculateSubnetMask (VStr "10.0.1.255") 24 = calculateSubnetMask (VNum 167772671) 24 /\
  calculateCIDRPrefix (VStr "10.0.1.255") (VStr "10.0.3.255")
  = calculateCIDRPrefix (VNum 167772671) (VNum 167773183).
Proof.
  split; [reflexivity|]. split; [reflexivity|].
  apply (public_functions_by_value 62 (VStr "10.0.1.255") (VStr "10.0.3.255")
           167772671 167773183 24); reflexivity.
Defined.

(** ** Decomposing the rest of a range *)

Section Tail.

(** The collection passed to the loop is only ever extended at its end. *)
Lemma calculate_loop_acc (fuel : nat) :
  forall c e acc,
    calculate_loop fuel c e acc =
    match calculate_loop fuel c e [] with
    | Return (Some bs) => Return (Some (acc ++ bs))
    | other => other
    end.
Proof.
  induction fuel as [|fuel IH]; intros c e acc.
  - cbn [calculate_loop]. destruct (c <=? e); [reflexivity|].
    rewrite app_nil_r. reflexivity.
  - cbn [calculate_loop]. destruct (c <=? e); [|rewrite app_nil_r; reflexivity].
    destruct (getOptimalRange c e) as [[r|]| |]; cbn [bind]; try reflexivity.
    rewrite (IH _ e (acc ++ [r])), (IH _ e ([] ++ [r])).
    destruct (calculate_loop fuel (ipHigh r + 1) e []) as [[bs|]| |]; try reflexivity.
    rewrite <- app_assoc. reflexivity.
Qed.

End Tail.

(** X20. Dropping the first block of a decomposition leaves the
    decomposition of the rest of the range: if [calculate] returns
    [b :: rest] for [start .. end], then either [b] ends at [end] and
    [rest] is empty, or [calculate] returns [rest] for
    [ipHigh b + 1 .. end], with one loop turn less. *)
Theorem calculate_tail
    (fuel : nat) (ipStart ipEnd : value) (s e : Z)
    (b : MaskRange) (rest : list MaskRange) :
  valid_address ipStart s -> valid_address ipEnd e ->
  calculate (S fuel) ipStart ipEnd = Return (Some (b :: rest)) ->
  (ipHigh b = e /\ rest = []) \/
  (ipHigh b < e /\
   calculate fuel (VNum (ipHigh b + 1)) ipEnd = Return (Some rest)).
Proof.
  intros Hs He Hrun.
  pose proof (toDecimal_range _ _ Hs) as Rs.
  pose proof (toDecimal_range _ _ He) as Re.
  assert (Hse : s <= e).
  { destruct (Z.le_gt_cases s e) as [|Hgt]; [assumption|]. exfalso.
    unfold valid_address in *. unfold calculate in Hrun. rewrite Hs, He in Hrun.
    cbn [bind try_or_null] in Hrun.
    destruct (Z.ltb_spec e s); [discriminate | lia]. }
  rewrite (calculate_valid (S fuel) ipStart ipEnd s e Hs He Hse) in Hrun.
  destruct (getOptimalRange_spec s e ltac:(lia) Hse ltac:(lia))
    as (r & Hr & Hp & _ & Hlow & Hhigh & [_ Hbd] & _).
  pose proof (pow2_pos (32 - prefixSize r) ltac:(lia)) as Hpos.
  rewrite (calculate_loop_step fuel s e [] r Hse Hr), calculate_loop_acc in Hrun.
  destruct (calculate_loop fuel (ipHigh r + 1) e []) as [[bs|]| |] eqn:E;
    try discriminate.
  cbn [app] in Hrun. injection Hrun as <- <-.
  destruct (Z.eq_dec (ipHigh r) e) as [Heq|Hne].
  - left. split; [exact Heq|].
    rewrite calculate_loop_done in E by lia. injection E as <-. reflexivity.
  - right. split; [lia|].
    assert (Hv : valid_address (VNum (ipHigh r + 1)) (ipHigh r + 1))
      by (apply toDecimal_number; lia).
    rewrite (calculate_valid fuel _ ipEnd (ipHigh r + 1) e Hv He ltac:(lia)).
    exact E.
Qed.

Lemma calculate_tail_witness :
  exists b rest,
    calculate 3 (VStr "10.0.1.255") (VStr "10.0.3.255") = Return (Some (b :: rest)) /\
    ((ipHigh b = 167773183 /\ rest = []) \/
     (ipHigh b < 167773183 /\
      calculate 2 (VNum (ipHigh b + 1)) (VStr "10.0.3.255") = Return (Some rest))).
Proof.
  do 2 eexists. split; [vm_compute; reflexivity|].
  apply (calculate_tail 2 (VStr "10.0.1.255") (VStr "10.0.3.255") 167772671 167773183);
    [reflexivity | reflexivity | vm_compute; reflexivity].
Defined.

(** X21. Two strings accepted by [isIp] convert to the same number
    exactly when they are equal up to leading zeros, that is when their
    canonical forms are the same string. *)
Theorem toDecimal_same_iff_canonical_form (s s' : string) :
  isIp (VStr s) = true -> isIp (VStr s') = true ->
  (toDecimal (VStr s) = toDecimal (VStr s') <->
   canonical_form s = canonical_form s').
Proof.
  intros Hs Hs'.
  destruct (isIp_inv s Hs) as (a & b & c & d & Hm & _).
  destruct (isIp_inv s' Hs') as (a' & b' & c' & d' & Hm' & _).
  destruct (canonical_form_spec s a b c d Hm) as (_ & _ & Hv).
  destruct (canonical_form_spec s' a' b' c' d' Hm') as (_ & _ & Hv').
  destruct (Hv Hs) as (n & Hn & Hcn & Hrn).
  destruct (Hv' Hs') as (n' & Hn' & Hcn' & Hrn').
  rewrite Hn, Hn'. split.
  - intros H. injection H as <-. rewrite Hrn in Hrn'. injection Hrn' as ->. reflexivity.
  - intros H. rewrite H, Hcn' in Hcn. symmetry. exact Hcn.
Qed.

Lemma toDecimal_same_iff_canonical_form_witness :
  toDecimal (VStr "010.008.099.000") = toDecimal (VStr "10.08.99.00") <->
  canonical_form "010.008.099.000" = canonical_form "10.08.99.00".
Proof.
  apply (toDecimal_same_iff_canonical_form "010.008.099.000" "10.08.99.00"); reflexivity.
Defined.
